(** * trio/_tools/gen_exports.py

    A shallow embedding of trio's generator of public-API wrappers and the
    properties its specification states about it.

    The generator parses a module with [ast], walks the tree with
    [ast.walk], and for every function decorated with [@_public] emits a
    free-standing function that forwards to the method of the same name on
    [GLOBAL_RUN_CONTEXT].  While doing so it edits the parsed function
    nodes in place, so the tree lives in a store of objects here. *)

From Stdlib Require Import String Ascii List Bool Arith Lia Permutation.
From stdpp Require Import base list strings option gmap.

Set Warnings "-register-all".

Open Scope string_scope.
Open Scope list_scope.

(** ** Text

    Python [str] values are modelled by [string]; a character stands for a
    code point below 256. *)

Module Str.

Definition chr (n : nat) : string := String (ascii_of_nat n) EmptyString.

(** The double quote and the line feed. *)
Definition dq : string := Eval cbv in chr 34.
Definition nl : string := Eval cbv in chr 10.

(** [sep.join(l)] *)
Fixpoint join (sep : string) (l : list string) : string :=
  match l with
  | [] => ""
  | [x] => x
  | x :: rest => x +:+ sep +:+ join sep rest
  end.

(** [s.startswith(p)] *)
Definition startswith (s p : string) : bool := String.prefix p s.

(** [p in s] *)
Fixpoint contains (p s : string) : bool :=
  String.prefix p s ||
  match s with
  | EmptyString => false
  | String _ s' => contains p s'
  end.

(** [s.replace(old, new)] for a non-empty [old]: the occurrences of [old]
    are found from the left and do not overlap.  [skip] counts the
    characters of a matched occurrence that are still to be dropped. *)
Fixpoint replace_from (old new : string) (skip : nat) (s : string) : string :=
  match s with
  | EmptyString => EmptyString
  | String c s' =>
      match skip with
      | S k => replace_from old new k s'
      | O =>
          if String.prefix old s
          then new +:+ replace_from old new (String.length old - 1) s'
          else String c (replace_from old new 0 s')
      end
  end.

(** With an empty [old], Python puts [new] around every character. *)
Fixpoint intersperse (new : string) (s : string) : string :=
  match s with
  | EmptyString => new
  | String c s' => new +:+ String c (intersperse new s')
  end.

Definition replace (old new s : string) : string :=
  match old with
  | EmptyString => intersperse new s
  | _ => replace_from old new 0 s
  end.

(** The line boundaries of [str.splitlines] below code point 256, other
    than the carriage return, which may be followed by a line feed. *)
Definition is_linebreak (c : ascii) : bool :=
  let n := nat_of_ascii c in
  ((n =? 10) || (n =? 11) || (n =? 12) || (n =? 28) || (n =? 29) || (n =? 30)
   || (n =? 133))%nat.

Definition is_cr (c : ascii) : bool := (nat_of_ascii c =? 13)%nat.
Definition is_lf (c : ascii) : bool := (nat_of_ascii c =? 10)%nat.

(** [str.isspace] below code point 256. *)
Definition is_space (c : ascii) : bool :=
  let n := nat_of_ascii c in
  (((9 <=? n) && (n <=? 13)) || ((28 <=? n) && (n <=? 32)) || (n =? 133)
   || (n =? 160))%nat.

(** [s.splitlines(True)]; [line] is the line read so far. *)
Fixpoint splitlines_from (line : string) (s : string) : list string :=
  match s with
  | EmptyString =>
      match line with EmptyString => [] | _ => [line] end
  | String c s' =>
      if is_cr c then
        match s' with
        | String c' s'' =>
            if is_lf c'
            then (line +:+ String c (String c' EmptyString))
                   :: splitlines_from EmptyString s''
            else (line +:+ String c EmptyString)
                   :: splitlines_from EmptyString s'
        | EmptyString => [line +:+ String c EmptyString]
        end
      else if is_linebreak c
      then (line +:+ String c EmptyString) :: splitlines_from EmptyString s'
      else splitlines_from (line +:+ String c EmptyString) s'
  end.

Definition splitlines (s : string) : list string :=
  splitlines_from EmptyString s.

(** [not line.strip()] *)
Fixpoint blank (line : string) : bool :=
  match line with
  | EmptyString => true
  | String c s => is_space c && blank s
  end.

Fixpoint concat (l : list string) : string :=
  match l with
  | [] => EmptyString
  | x :: rest => x +:+ concat rest
  end.

(** [textwrap.indent(text, prefix)]: the prefix goes in front of every
    line that does not consist of white space only. *)
Definition indent (text prefix : string) : string :=
  concat (map (fun line => if blank line then line else prefix +:+ line)
              (splitlines text)).

(** [s.rfind("/") + 1]: the length of the part of [s] up to and including
    its last slash, 0 when it has none. *)
Fixpoint after_last_slash (s : string) : nat :=
  match s with
  | EmptyString => 0
  | String c s' =>
      match after_last_slash s' with
      | S k => S (S k)
      | O => if Ascii.eqb c "/" then 1 else 0
      end
  end.

Fixpoint all_slashes (s : string) : bool :=
  match s with
  | EmptyString => true
  | String c s' => Ascii.eqb c "/" && all_slashes s'
  end.

(** [s.rstrip("/")] *)
Fixpoint rstrip_slash (s : string) : string :=
  match s with
  | EmptyString => EmptyString
  | String c s' =>
      match rstrip_slash s' with
      | EmptyString => if Ascii.eqb c "/" then EmptyString else String c EmptyString
      | r => String c r
      end
  end.

Definition take (n : nat) (s : string) : string := String.substring 0 n s.
Definition drop (n : nat) (s : string) : string :=
  String.substring n (String.length s - n) s.

Definition endswith_slash (s : string) : bool :=
  match String.length s with
  | O => false
  | S k => String.eqb (drop k s) "/"
  end.

(** [s.rfind(".")], as the length of the part before the last dot. *)
Fixpoint rfind_dot (s : string) : option nat :=
  match s with
  | EmptyString => None
  | String c s' =>
      match rfind_dot s' with
      | Some k => Some (S k)
      | None => if Ascii.eqb c "." then Some 0 else None
      end
  end.

End Str.

(** [os.path.split] and [os.path.join] of [posixpath], and the [stem] of a
  [pathlib] path. *)
Module Path.

Definition split (p : string) : string * string :=
  let i := Str.after_last_slash p in
  let head := Str.take i p in
  let tail := Str.drop i p in
  let head :=
    if negb (String.eqb head "") && negb (Str.all_slashes head)
    then Str.rstrip_slash head else head in
  (head, tail).

Definition join (a b : string) : string :=
  if Str.startswith b "/" then b
  else if String.eqb a "" || Str.endswith_slash a then a +:+ b
  else a +:+ "/" +:+ b.

Definition stem (p : string) : string :=
  let name := snd (split p) in
  match Str.rfind_dot name with
  | Some i =>
      if ((0 <? i) && (i <? String.length name - 1))%nat then Str.take i name
      else name
  | None => name
  end.

End Path.

(** ** Syntax trees

    The nodes of Python's [ast] that the generator looks at are spelled
    out; every other node class is a [Node] (a node that may hold
    statements: class definitions, [if], [with], exception handlers, ...)
    or an [ExprNode] (a node below an expression, which never holds a
    statement).  Children are listed in the order of [_fields], the order
    in which [ast.iter_child_nodes] yields them. *)

Inductive expr_context := Load | Store | Del.

Inductive constant :=
| CNone
| CEllipsis
| CBool (b : bool)
| CInt (z : Z)
| CFloat (repr : string)
| CStr (s : string)
| CBytes (s : string).

Inductive expr :=
| Name (id : string) (ctx : expr_context)
| Constant (value : constant)
| ExprNode (cls : string) (children : list expr).

(** [ast.arg] *)
Record ast_arg := Arg { arg : string; annotation : option expr }.

(** [ast.arguments] *)
Record ast_arguments := Arguments {
  posonlyargs : list ast_arg;
  args : list ast_arg;
  vararg : option ast_arg;
  kwonlyargs : list ast_arg;
  kw_defaults : list (option expr);
  kwarg : option ast_arg;
  defaults : list expr
}.

(** [FunctionDef] stands for both [ast.FunctionDef] and
    [ast.AsyncFunctionDef], told apart by [is_async]; [Expr] is the
    expression statement; [Inj e] is the expression node [e] where it is
    the child of a statement-like node. *)
Inductive node :=
| FunctionDef (is_async : bool) (name : string) (a : ast_arguments)
    (body : list node) (decorator_list : list expr) (returns : option expr)
| Expr (value : expr)
| Node (cls : string) (children : list node)
| Inj (e : expr).

(** ** The store

    [gen_public_wrappers_source] deletes from [method.args.args] and
    [method.body] and rebinds [method.decorator_list] while [ast.walk] is
    still running over the same objects.  So the objects that are edited,
    and every node on the way to them, live in a store: the statement-like
    nodes and the [arguments] object of every function.  A location is the
    path of the object in the tree as parsed.  Expression nodes, [arg]
    nodes and contexts are never edited and are kept by value in the
    object that holds them. *)

Definition loc := list nat.

Inductive value :=
| VExpr (e : expr)
| VArg (a : ast_arg)
| VCtx (c : expr_context).

(** What a field or the queue of [ast.walk] holds: a reference to an
    object of the store, or a node kept by value. *)
Inductive item :=
| Ref (l : loc)
| Val (v : value).

(** A function object; [f_args] refers to its [arguments] object. *)
Record function := Function {
  f_async : bool;
  f_name : string;
  f_args : loc;
  f_body : list item;
  f_decorator_list : list expr;
  f_returns : option expr
}.

Inductive obj :=
| OFunctionDef (f : function)
| OArguments (a : ast_arguments)
| OExpr (value : expr)
| ONode (cls : string) (children : list item).

Definition store := loc -> option obj.

Definition upd (σ : store) (l : loc) (o : obj) : store :=
  fun l' => if decide (l' = l) then Some o else σ l'.

(** *** Loading a parsed tree into the store *)

(** What the tree holds at a location. *)
Inductive tnode :=
| TNode (n : node)
| TArgs (a : ast_arguments).

(** In a function the [arguments] object is child 0 and the body follows;
    in another node the children are numbered as they come. *)
Definition child (x : tnode) (k : nat) : option tnode :=
  match x with
  | TNode (FunctionDef _ _ a body _ _) =>
      match k with
      | O => Some (TArgs a)
      | S i => TNode <$> body !! i
      end
  | TNode (Node _ cs) => TNode <$> cs !! k
  | _ => None
  end.

Fixpoint subtree (x : tnode) (p : loc) : option tnode :=
  match p with
  | [] => Some x
  | k :: p' =>
      match child x k with
      | Some y => subtree y p'
      | None => None
      end
  end.

Definition item_of (l : loc) (n : node) : item :=
  match n with
  | Inj e => Val (VExpr e)
  | _ => Ref l
  end.

Definition items_at (p : loc) (start : nat) (ns : list node) : list item :=
  imap (fun i n => item_of (p ++ [start + i]) n) ns.

Definition cell (p : loc) (x : tnode) : option obj :=
  match x with
  | TNode (FunctionDef is_async name _ body decs returns) =>
      Some (OFunctionDef
              (Function is_async name (p ++ [0]) (items_at p 1 body) decs returns))
  | TNode (Expr v) => Some (OExpr v)
  | TNode (Node cls cs) => Some (ONode cls (items_at p 0 cs))
  | TNode (Inj _) => None
  | TArgs a => Some (OArguments a)
  end.

Definition load (t : node) : store :=
  fun l => subtree (TNode t) l ≫= cell l.

(** The root of a loaded tree. *)
Definition root (t : node) : item := item_of [] t.

(** ** Outcomes *)

Inductive exn :=
| IndexError
| AssertionError
| AttributeError
| FileNotFoundError
| SyntaxError.

(** [Stuck] is not a Python outcome: the model followed a reference to no
    object or ran out of fuel.  It does not happen on a loaded tree. *)
Inductive res (A : Type) :=
| Ok (x : A)
| Raise (e : exn)
| Stuck.

Arguments Ok {A} x.
Arguments Raise {A} e.
Arguments Stuck {A}.

#[global] Instance res_ret : MRet res := fun A x => Ok x.

#[global] Instance res_bind : MBind res := fun A B f m =>
  match m with
  | Ok x => f x
  | Raise e => Raise e
  | Stuck => Stuck
  end.

(** ** The [ast] library *)

(** [ast.iter_child_nodes] on a node kept by value: its children are
    kept by value too. *)
Definition value_children (v : value) : list value :=
  match v with
  | VExpr (Name _ ctx) => [VCtx ctx]
  | VExpr (Constant _) => []
  | VExpr (ExprNode _ cs) => map VExpr cs
  | VArg a => map VExpr (option_list (annotation a))
  | VCtx _ => []
  end.

(** The entries of [kw_defaults] that are [None] are not nodes. *)
Definition arguments_children (a : ast_arguments) : list value :=
  map VArg (posonlyargs a)
  ++ map VArg (args a)
  ++ map VArg (option_list (vararg a))
  ++ map VArg (kwonlyargs a)
  ++ map VExpr (omap id (kw_defaults a))
  ++ map VArg (option_list (kwarg a))
  ++ map VExpr (defaults a).

(** [ast.iter_child_nodes] on an object of the store. *)
Definition obj_children (o : obj) : list item :=
  match o with
  | OFunctionDef f =>
      Ref (f_args f) :: f_body f
      ++ map Val (map VExpr (f_decorator_list f)
                  ++ map VExpr (option_list (f_returns f)))
  | OArguments a => map Val (arguments_children a)
  | OExpr v => [Val (VExpr v)]
  | ONode _ cs => cs
  end.

(** [list(ast.iter_child_nodes(node))] *)
Definition iter_child_nodes (σ : store) (node : item) : res (list item) :=
  match node with
  | Ref l =>
      match σ l with
      | Some o => Ok (obj_children o)
      | None => Stuck
      end
  | Val v => Ok (map Val (value_children v))
  end.

(** One resumption of the generator [ast.walk]: with [todo] its deque,
<<
    node = todo.popleft()
    todo.extend(iter_child_nodes(node))
    yield node
>>
    The children are read from the store as it is when the node is taken
    from the deque, before the node is yielded. *)
Definition walk_next (σ : store) (todo : list item)
  : res (option (item * list item)) :=
  match todo with
  | [] => Ok None
  | node :: todo =>
      cs ← iter_child_nodes σ node;
      Ok (Some (node, todo ++ cs))
  end.

(** [ast.get_docstring(node) is not None] for a function [node]: the body
    starts with an expression statement whose value is a string constant. *)
Definition has_docstring (σ : store) (body : list item) : bool :=
  match body with
  | Ref l :: _ =>
      match σ l with
      | Some (OExpr (Constant (CStr _))) => true
      | _ => false
      end
  | _ => false
  end.

(** The number of nodes of a tree: no walk takes more steps. *)
Fixpoint size_expr (e : expr) : nat :=
  match e with
  | Name _ _ => 2
  | Constant _ => 1
  | ExprNode _ cs => S (list_sum (map size_expr cs))
  end.

Definition size_option {A} (f : A -> nat) (o : option A) : nat :=
  match o with
  | Some x => f x
  | None => 0
  end.

Definition size_arg (a : ast_arg) : nat :=
  S (size_option size_expr (annotation a)).

Definition size_arguments (a : ast_arguments) : nat :=
  S (list_sum (map size_arg (posonlyargs a))
     + list_sum (map size_arg (args a))
     + size_option size_arg (vararg a)
     + list_sum (map size_arg (kwonlyargs a))
     + list_sum (map (size_option size_expr) (kw_defaults a))
     + size_option size_arg (kwarg a)
     + list_sum (map size_expr (defaults a))).

Fixpoint size (n : node) : nat :=
  match n with
  | FunctionDef _ _ a body decs returns =>
      S (size_arguments a + list_sum (map size body)
         + list_sum (map size_expr decs) + size_option size_expr returns)
  | Expr v => S (size_expr v)
  | Node _ cs => S (list_sum (map size cs))
  | Inj e => size_expr e
  end.

(** The tree that a reference stands for, read back from the store; this
    is what a library that takes a node, such as [astor], sees. *)
Fixpoint reify (fuel : nat) (σ : store) (it : item) : option node :=
  match it with
  | Val (VExpr e) => Some (Inj e)
  | Val _ => None
  | Ref l =>
      match fuel with
      | O => None
      | S fuel =>
          match σ l with
          | Some (OFunctionDef f) =>
              match σ (f_args f) with
              | Some (OArguments a) =>
                  body ← mapM (reify fuel σ) (f_body f);
                  Some (FunctionDef (f_async f) (f_name f) a body
                          (f_decorator_list f) (f_returns f))
              | _ => None
              end
          | Some (OExpr v) => Some (Expr v)
          | Some (ONode cls cs) =>
              cs ← mapM (reify fuel σ) cs ; Some (Node cls cs)
          | _ => None
          end
      end
  end.

(** ** The generator *)

Definition PREFIX : string := "_generated".

Definition HEADER : string :=
"# ***********************************************************
# ******* WARNING: AUTOGENERATED! ALL EDITS WILL BE LOST ******
# *************************************************************
# Don't lint this file, generation will not format this too nicely.
# isort: skip_file
# fmt: off
from __future__ import annotations

from ._ki import LOCALS_KEY_KI_PROTECTION_ENABLED
from ._run import GLOBAL_RUN_CONTEXT
".

Definition FOOTER : string :=
"# fmt: on
".

(** [TEMPLATE.format(a, b, c)] *)
Definition TEMPLATE (a b c : string) : string :=
"locals()[LOCALS_KEY_KI_PROTECTION_ENABLED] = True
try:
    return" +:+ a +:+ "GLOBAL_RUN_CONTEXT." +:+ b +:+ "." +:+ c +:+ "
except AttributeError:
    raise RuntimeError(" +:+ Str.dq +:+ "must be called from async context"
  +:+ Str.dq +:+ ")
".

Record File := mkFile {
  path : string;
  modname : string;
  platform : string;
  imports : string
}.

(** [isinstance(node, ast.FunctionDef)] and
    [isinstance(node, ast.AsyncFunctionDef)] *)
Definition isinstance_FunctionDef (σ : store) (node : item) : bool :=
  match node with
  | Ref l =>
      match σ l with
      | Some (OFunctionDef f) => negb (f_async f)
      | _ => false
      end
  | Val _ => false
  end.

Definition isinstance_AsyncFunctionDef (σ : store) (node : item) : bool :=
  match node with
  | Ref l =>
      match σ l with
      | Some (OFunctionDef f) => f_async f
      | _ => false
      end
  | Val _ => false
  end.

Definition is_function (σ : store) (node : item) : bool :=
  if isinstance_FunctionDef σ node || isinstance_AsyncFunctionDef σ node
  then true else false.

(** [isinstance(decorator, ast.Name) and decorator.id == id] *)
Definition is_name (id : string) (decorator : expr) : bool :=
  match decorator with
  | Name id' _ => String.eqb id' id
  | _ => false
  end.

Definition is_public (σ : store) (node : item) : bool :=
  if is_function σ node then
    match node with
    | Ref l =>
        match σ l with
        | Some (OFunctionDef f) => existsb (is_name "_public") (f_decorator_list f)
        | _ => false
        end
    | Val _ => false
    end
  else false.

(** [for method in get_public_methods(tree): body], from the point where
    the deque of [ast.walk] is [todo].  [get_public_methods] and
    [ast.walk] are generators, so the body runs between two resumptions of
    the walk and the walk reads the store as the body left it. *)
Fixpoint for_public_methods {A} (body : item -> A -> store -> res (A * store))
    (fuel : nat) (todo : list item) (acc : A) (σ : store) : res (A * store) :=
  match fuel with
  | O =>
      match todo with
      | [] => Ok (acc, σ)
      | _ => Stuck
      end
  | S fuel =>
      next ← walk_next σ todo;
      match next with
      | None => Ok (acc, σ)
      | Some (node, todo) =>
          if is_public σ node then
            r ← body node acc σ;
            for_public_methods body fuel todo r.1 r.2
          else for_public_methods body fuel todo acc σ
      end
  end.

(** [list(get_public_methods(tree))] *)
Definition get_public_methods (fuel : nat) (σ : store) (tree : item)
  : res (list item) :=
  r ← for_public_methods (fun node acc σ => Ok (acc ++ [node], σ))
        fuel [tree] [] σ;
  Ok r.1.

Definition read_function (σ : store) (node : item) : res (loc * function) :=
  match node with
  | Ref l =>
      match σ l with
      | Some (OFunctionDef f) => Ok (l, f)
      | Some _ => Raise AttributeError
      | None => Stuck
      end
  | Val _ => Raise AttributeError
  end.

Definition read_arguments (σ : store) (l : loc) : res ast_arguments :=
  match σ l with
  | Some (OArguments a) => Ok a
  | Some _ => Raise AttributeError
  | None => Stuck
  end.

Definition create_passthrough_args (σ : store) (funcdef : item) : res string :=
  f ← read_function σ funcdef;
  a ← read_arguments σ (f_args f.2);
  let call_args := [] in
  let call_args := fold_left (fun acc x => acc ++ [arg x]) (args a) call_args in
  let call_args :=
    match vararg a with
    | Some v => call_args ++ ["*" +:+ arg v]
    | None => call_args
    end in
  let call_args :=
    fold_left (fun acc x => acc ++ [arg x +:+ "=" +:+ arg x])
      (kwonlyargs a) call_args in
  let call_args :=
    match kwarg a with
    | Some k => call_args ++ ["**" +:+ arg k]
    | None => call_args
    end in
  Ok ("(" +:+ Str.join ", " call_args +:+ ")").

(** The files on disk: the text of every regular file, by path. *)
Abbreviation files := (gmap string string).

(** What the run prints and what it leaves on disk. *)
Record world := World {
  disk : files;
  stdout : list string
}.

Definition print (line : string) (w : world) : world :=
  World (disk w) (stdout w ++ [line]).

Definition write_file (p text : string) (w : world) : world :=
  World (<[p := text]> (disk w)) (stdout w).

(** A Python [dict] with string keys: [d[k] = v] keeps the place of a key
    that is already there. *)
Fixpoint dict_set (d : list (string * string)) (k v : string)
  : list (string * string) :=
  match d with
  | [] => [(k, v)]
  | (k', v') :: d' =>
      if String.eqb k' k then (k', v) :: d' else (k', v') :: dict_set d' k v
  end.

(** How a run of [process] ends. *)
Inductive status :=
| Returned
| SystemExit (code : nat)
| Raised (e : exn)
| Unreached.

Section Generator.

(** The libraries the generator calls and that are not part of it:
    [astor.to_source(node, indent_with=" " * 4)] and the parser behind
    [astor.code_to_ast.parse_file], which fails on text that is not
    Python. *)
Variable to_source : node -> string.
Variable parse : string -> option node.

Definition parse_file (p : string) (fs : files) : res node :=
  match fs !! p with
  | None => Raise FileNotFoundError
  | Some text =>
      match parse text with
      | Some tree => Ok tree
      | None => Raise SyntaxError
      end
  end.

(** [astor.to_source(method, indent_with=" " * 4)] on the object as it is
    in the store.  When it is called the body of the method holds at most
    the docstring statement, so two levels are read. *)
Definition to_source_at (σ : store) (method : item) : res string :=
  match reify 2 σ method with
  | Some n => Ok (to_source n)
  | None => Stuck
  end.

(** The body of the loop of [gen_public_wrappers_source] for one method:
    the snippet it appends and the store it leaves. *)
Definition wrap_method (file : File) (method : item) (σ : store)
  : res (string * store) :=
  (* assert method.args.args[0].arg == "self" *)
  f ← read_function σ method;
  a ← read_arguments σ (f_args f.2);
  match args a with
  | [] => Raise IndexError
  | first :: rest =>
      if negb (String.eqb (arg first) "self") then Raise AssertionError else
      (* del method.args.args[0] *)
      let σ :=
        upd σ (f_args f.2)
          (OArguments
             (Arguments (posonlyargs a) rest (vararg a) (kwonlyargs a)
                (kw_defaults a) (kwarg a) (defaults a))) in
      f ← read_function σ method;
      let is_cm := existsb (is_name "contextmanager") (f_decorator_list f.2) in
      (* method.decorator_list = [] *)
      let σ :=
        upd σ f.1
          (OFunctionDef
             (Function (f_async f.2) (f_name f.2) (f_args f.2) (f_body f.2)
                [] (f_returns f.2))) in
      new_args ← create_passthrough_args σ method;
      f ← read_function σ method;
      (* del method.body[:] or del method.body[1:] *)
      let body :=
        if has_docstring σ (f_body f.2) then take 1 (f_body f.2) else [] in
      let σ :=
        upd σ f.1
          (OFunctionDef
             (Function (f_async f.2) (f_name f.2) (f_args f.2) body
                (f_decorator_list f.2) (f_returns f.2))) in
      func ← to_source_at σ method;
      let func :=
        if is_cm then Str.replace "->Iterator" "->ContextManager" func
        else func in
      let func :=
        if String.eqb (Path.stem (path file)) "_run"
           && Str.startswith func "def reschedule"
        then Str.replace ("None:" +:+ Str.nl)
               ("None:  # type: ignore[has-type]" +:+ Str.nl) func
        else func in
      let template :=
        TEMPLATE
          (if isinstance_AsyncFunctionDef σ method then " await " else " ")
          (modname file)
          (f_name f.2 +:+ new_args) in
      let snippet := func +:+ Str.indent template "    " in
      Ok (snippet, σ)
  end.

(** The first element of [generated]: the header and what the
    configuration of the file adds to it. *)
Definition header (file : File) : string :=
  let header := [HEADER] in
  let header :=
    if negb (String.eqb (imports file) "") then header ++ [imports file]
    else header in
  let header :=
    if negb (String.eqb (platform file) "") then
      let header :=
        if negb (Str.contains "TYPE_CHECKING" (imports file))
        then header ++ ["from typing import TYPE_CHECKING" +:+ Str.nl]
        else header in
      let header :=
        if negb (Str.contains "import sys" (imports file))
        then header ++ ["import sys" +:+ Str.nl]
        else header in
      header ++ [Str.nl +:+ "assert not TYPE_CHECKING or sys.platform=="
                 +:+ Str.dq +:+ platform file +:+ Str.dq +:+ Str.nl]
    else header in
  Str.concat header.

(** The loop over the public methods of a parsed tree: the list
    [generated] and the store when the loop ends. *)
Definition wrap_methods (file : File) (source : node)
  : res (list string * store) :=
  for_public_methods
    (fun method generated σ =>
       r ← wrap_method file method σ;
       Ok (generated ++ [r.1], r.2))
    (size source) [root source] [header file] (load source).

Definition gen_public_wrappers_source (file : File) (fs : files) : res string :=
  source ← parse_file (path file) fs;
  r ← wrap_methods file source;
  let generated := r.1 ++ [FOOTER] in
  Ok (Str.join (Str.nl +:+ Str.nl) generated).

Fixpoint matches_disk_files (fs : files) (new_files : list (string * string))
  : bool :=
  match new_files with
  | [] => true
  | (new_path, new_source) :: rest =>
      match fs !! new_path with
      | None => false
      | Some old_source =>
          if negb (String.eqb old_source new_source) then false
          else matches_disk_files fs rest
      end
  end.

(** The first loop of [process]. *)
Fixpoint scan (files_ : list File) (new_files : list (string * string))
    (w : world) : res (list (string * string)) * world :=
  match files_ with
  | [] => (Ok new_files, w)
  | file :: rest =>
      let w := print ("Scanning: " +:+ path file) w in
      match gen_public_wrappers_source file (disk w) with
      | Ok new_source =>
          let (dirname, basename) := Path.split (path file) in
          let new_path := Path.join dirname (PREFIX +:+ basename) in
          scan rest (dict_set new_files new_path new_source) w
      | Raise e => (Raise e, w)
      | Stuck => (Stuck, w)
      end
  end.

Definition write_all (new_files : list (string * string)) (w : world) : world :=
  fold_left (fun w kv => write_file kv.1 kv.2 w) new_files w.

Definition process (files_ : list File) (do_test : bool) (w : world)
  : status * world :=
  match scan files_ [] w with
  | (Ok new_files, w) =>
      if do_test then
        if negb (matches_disk_files (disk w) new_files) then
          (SystemExit 1,
           print "Generated sources are outdated. Please regenerate." w)
        else (Returned, print "Generated sources are up to date." w)
      else
        (Returned,
         print "Regenerated sources successfully." (write_all new_files w))
  | (Raise e, w) => (Raised e, w)
  | (Stuck, w) => (Unreached, w)
  end.

End Generator.

(** ** The tree as parsed

    What follows is stated on the tree as the parser returns it: the
    nodes with their locations, the two orders in which a tree can be
    listed, and what the loop does to one function. *)

(** The children of a node that are nodes of the tree type, with their
    locations. *)
Definition nodes_at (p : loc) (start : nat) (ns : list node)
  : list (loc * node) :=
  imap (fun i c => (p ++ [start + i], c)) ns.

Definition children (p : loc) (n : node) : list (loc * node) :=
  match n with
  | FunctionDef _ _ _ body _ _ => nodes_at p 1 body
  | Node _ cs => nodes_at p 0 cs
  | _ => []
  end.

(** Breadth first: a queue, the children of a node go to its end. *)
Fixpoint bfs (fuel : nat) (todo : list (loc * node)) : list (loc * node) :=
  match fuel, todo with
  | S fuel, x :: rest => x :: bfs fuel (rest ++ children x.1 x.2)
  | _, _ => []
  end.

Definition breadth_first (t : node) : list (loc * node) :=
  bfs (size t) [([], t)].

(** Depth first, a node before its children: the order of the source
    text. *)
Fixpoint preorder (p : loc) (n : node) : list (loc * node) :=
  let fix go (i : nat) (cs : list node) : list (loc * node) :=
    match cs with
    | [] => []
    | c :: cs => preorder (p ++ [i]) c ++ go (S i) cs
    end in
  match n with
  | FunctionDef _ _ _ body _ _ => (p, n) :: go 1 body
  | Node _ cs => (p, n) :: go 0 cs
  | _ => [(p, n)]
  end.

(** The listing of a run of children, the first of them at index [i]. *)
Fixpoint preorder_from (p : loc) (i : nat) (cs : list node)
  : list (loc * node) :=
  match cs with
  | [] => []
  | c :: cs => preorder (p ++ [i]) c ++ preorder_from p (S i) cs
  end.

(** The node of a tree at a location, when the location is one. *)
Definition node_at (t : node) (l : loc) : option node :=
  match subtree (TNode t) l with
  | Some (TNode n) => Some n
  | _ => None
  end.

(** A function definition, of either kind, with [_public] among its
    decorators as a bare name. *)
Definition marked (n : node) : bool :=
  match n with
  | FunctionDef _ _ _ _ decs _ => existsb (is_name "_public") decs
  | _ => false
  end.

Definition marked_at (x : loc * node) : bool := marked x.2.

(** [args] without its first element. *)
Definition without_receiver (a : ast_arguments) : ast_arguments :=
  Arguments (posonlyargs a) (tail (args a)) (vararg a) (kwonlyargs a)
    (kw_defaults a) (kwarg a) (defaults a).

(** The arguments of the forwarding call, from an [arguments] node. *)
Definition passthrough (a : ast_arguments) : string :=
  "(" +:+ Str.join ", "
            (map arg (args a)
             ++ match vararg a with Some v => ["*" +:+ arg v] | None => [] end
             ++ map (fun x => arg x +:+ "=" +:+ arg x) (kwonlyargs a)
             ++ match kwarg a with Some k => ["**" +:+ arg k] | None => [] end)
      +:+ ")".

(** The docstring statement of a body, when it starts with one. *)
Definition docstring_only (body : list node) : list node :=
  match body with
  | Expr (Constant (CStr s)) :: _ => [Expr (Constant (CStr s))]
  | _ => []
  end.

(** The function as the loop hands it to [astor.to_source]. *)
Definition forwarded (n : node) : node :=
  match n with
  | FunctionDef is_async name a body _ returns =>
      FunctionDef is_async name (without_receiver a) (docstring_only body)
        [] returns
  | _ => n
  end.

(** The delegation lines, already indented, for a call [call] on the
    context attribute [modname]. *)
Definition delegation (is_async : bool) (modname call : string) : string :=
"    locals()[LOCALS_KEY_KI_PROTECTION_ENABLED] = True
    try:
        return" +:+ (if is_async then " await " else " ")
  +:+ "GLOBAL_RUN_CONTEXT." +:+ modname +:+ "." +:+ call +:+ "
    except AttributeError:
        raise RuntimeError(" +:+ Str.dq +:+ "must be called from async context"
  +:+ Str.dq +:+ ")
".

(** The precondition the loop checks on a marked function. *)
Definition check_receiver (n : node) : res unit :=
  match n with
  | FunctionDef _ _ a _ _ _ =>
      match args a with
      | [] => Raise IndexError
      | first :: _ =>
          if String.eqb (arg first) "self" then Ok tt else Raise AssertionError
      end
  | _ => Raise AttributeError
  end.

(** The objects the loop writes for the function [n] at [m]: the
    [arguments] object, then the function twice, first without its
    decorators and then with its body cut. *)
Definition strip (m : loc) (n : node) (σ : store) : store :=
  match n with
  | FunctionDef is_async name a body _ returns =>
      upd
        (upd (upd σ (m ++ [0]) (OArguments (without_receiver a))) m
           (OFunctionDef
              (Function is_async name (m ++ [0]) (items_at m 1 body) []
                 returns)))
        m
        (OFunctionDef
           (Function is_async name (m ++ [0])
              (items_at m 1 (docstring_only body)) [] returns))
  | _ => σ
  end.

(** The two corrections the loop makes in the text it gets from
    [astor]. *)
Definition corrections (file : File) (decs : list expr) (func : string)
  : string :=
  let func :=
    if existsb (is_name "contextmanager") decs
    then Str.replace "->Iterator" "->ContextManager" func else func in
  if String.eqb (Path.stem (path file)) "_run"
     && Str.startswith func "def reschedule"
  then Str.replace ("None:" +:+ Str.nl)
         ("None:  # type: ignore[has-type]" +:+ Str.nl) func
  else func.

(** The text of the function as the loop gets it from [astor], after the
    corrections. *)
Definition rendered (to_source : node -> string) (file : File) (n : node)
  : string :=
  match n with
  | FunctionDef _ _ _ _ decs _ => corrections file decs (to_source (forwarded n))
  | _ => ""
  end.

(** The call that the generated function makes. *)
Definition forwarding_call (n : node) : string :=
  match n with
  | FunctionDef _ name a _ _ _ => name +:+ passthrough (without_receiver a)
  | _ => ""
  end.

Definition asynchronous (n : node) : bool :=
  match n with
  | FunctionDef is_async _ _ _ _ _ => is_async
  | _ => false
  end.

(** The snippet that the loop appends for the function [n]. *)
Definition snippet (to_source : node -> string) (file : File) (n : node)
  : string :=
  rendered to_source file n
  +:+ Str.indent
        (TEMPLATE (if asynchronous n then " await " else " ") (modname file)
           (forwarding_call n))
        "    ".

Definition wrapper (to_source : node -> string) (file : File) (n : node)
  : res string :=
  _ ← check_receiver n; Ok (snippet to_source file n).

(** The marked functions of a tree, in the order of the walk. *)
Definition public_methods (t : node) : list (loc * node) :=
  filter marked_at (breadth_first t).

(** The snippets for a list of functions; the first function that fails
    the check ends the run. *)
Fixpoint wrappers (to_source : node -> string) (file : File)
    (l : list (loc * node)) : res (list string) :=
  match l with
  | [] => Ok []
  | x :: l =>
      s ← wrapper to_source file x.2;
      rest ← wrappers to_source file l;
      Ok (s :: rest)
  end.

(** What the loop has written when it is through with a list of
    functions. *)
Definition strips (l : list (loc * node)) (σ : store) : store :=
  fold_left (fun σ x => strip x.1 x.2 σ) l σ.

(** No character of the text ends a line. *)
Fixpoint no_linebreak (s : string) : bool :=
  match s with
  | EmptyString => true
  | String c s' => negb (Str.is_cr c) && negb (Str.is_linebreak c) && no_linebreak s'
  end.

(** The store agrees with the parsed tree [x] below location [m]. *)
Definition agree (σ : store) (m : loc) (x : tnode) : Prop :=
  forall q, σ (m ++ q) = subtree x q ≫= cell (m ++ q).

(** Neither location is on the path to the other. *)
Definition apart (l1 l2 : loc) : Prop :=
  ¬ l1 `prefix_of` l2 ∧ ¬ l2 `prefix_of` l1.

Definition size_value (v : value) : nat :=
  match v with
  | VExpr e => size_expr e
  | VArg a => size_arg a
  | VCtx _ => 1
  end.

(** The deque of the walk over the store against the queue of the
    breadth-first listing of the tree: a node of the tree stands for
    itself; in between come nodes below which there is no statement, the
    [arguments] objects and the nodes kept by value.  The number bounds
    the steps the walk still takes. *)
Inductive queues (σ : store) : list item -> list (loc * node) -> nat -> Prop :=
| queues_nil : queues σ [] [] 0
| queues_node m n todo q k :
    match n with Inj _ => True | _ => agree σ m (TNode n) end ->
    Forall (fun x => apart m x.1) q ->
    queues σ todo q k ->
    queues σ (item_of m n :: todo) ((m, n) :: q) (size n + k)
| queues_arguments l a todo q k :
    σ l = Some (OArguments a) ->
    queues σ todo q k ->
    queues σ (Ref l :: todo) q (size_arguments a + k)
| queues_value v todo q k :
    queues σ todo q k ->
    queues σ (Val v :: todo) q (size_value v + k).

(** Running the body of the loop over a list of functions of the tree. *)
Fixpoint run {A} (body : loc -> node -> A -> res A) (edit : loc -> node -> store -> store)
    (l : list (loc * node)) (acc : A) (σ : store) : res (A * store) :=
  match l with
  | [] => Ok (acc, σ)
  | (m, n) :: l =>
      acc ← body m n acc;
      run body edit l acc (edit m n σ)
  end.

(** A change of the store at a function and at its [arguments] object
    leaves the rest of the deque as it was. *)
Definition edits (m : loc) (σ σ' : store) : Prop :=
  (forall l, l ≠ m -> l ≠ m ++ [0] -> σ' l = σ l) ∧
  (forall a, σ (m ++ [0]) = Some (OArguments a) ->
     exists a', σ' (m ++ [0]) = Some (OArguments a')
                ∧ size_arguments a' <= size_arguments a).

(** Where [process] puts the text generated for a file. *)
Definition output_path (file : File) : string :=
  let (dirname, basename) := Path.split (path file) in
  Path.join dirname (PREFIX +:+ basename).

(** ** Sample inputs *)

Module Sample.

(** A stand-in for [astor.to_source]: the [def] line without its
    parameters, and the docstring. *)
Definition to_source (n : node) : string :=
  match n with
  | FunctionDef is_async name _ body _ _ =>
      (if is_async then "async def " else "def ") +:+ name +:+ "(...):" +:+ Str.nl
      +:+ match body with
          | Expr (Constant (CStr s)) :: _ =>
              "    " +:+ Str.dq +:+ s +:+ Str.dq +:+ Str.nl
          | _ => ""
          end
  | _ => ""
  end.

Definition param (name : string) : ast_arg := Arg name None.

Definition public : expr := Name "_public" Load.

(** [async def f(self, x, *, y=2)] with a docstring and one more
    statement, marked public. *)
Definition f : node :=
  FunctionDef true "f"
    (Arguments [] [param "self"; param "x"] None [param "y"]
       [Some (Constant (CInt 2))] None [])
    [Expr (Constant (CStr "doc")); Node "Pass" []]
    [public] None.

(** [def m(self, a, b, *rest, c=1, **kw)], marked public. *)
Definition m : node :=
  FunctionDef false "m"
    (Arguments [] [param "self"; param "a"; param "b"] (Some (param "rest"))
       [param "c"] [Some (Constant (CInt 1))] (Some (param "kw")) [])
    [Node "Pass" []]
    [public] None.

(** A marked function without parameters, and one whose first parameter
    is not [self]. *)
Definition no_parameters : node :=
  FunctionDef false "g" (Arguments [] [] None [] [] None []) [Node "Pass" []]
    [public] None.

Definition other_receiver : node :=
  FunctionDef false "h" (Arguments [] [param "this"] None [] [] None [])
    [Node "Pass" []] [public] None.

(** [class Runner], holding [f]. *)
Definition module : node :=
  Node "Module" [Node "ClassDef" [Inj (Name "object" Load); f]].

(** A class whose first method sits below an [if], followed by a method
    that does not:
<<
    class Runner:
        if WINDOWS:
            @_public
            def f(self, x, *, y=2): ...
        @_public
        def m(self, a, b, *rest, c=1, **kw): ...
>> *)
Definition nested : node :=
  Node "Module"
    [Node "ClassDef"
       [Node "If" [Inj (Name "WINDOWS" Load); f];
        m]].

Definition file : File := mkFile "trio/_core/_run.py" "runner" "" "".

Definition text : string := "class Runner: ...".

Definition parse (s : string) : option node :=
  if String.eqb s text then Some module else None.

Definition parse_no_parameters (s : string) : option node :=
  if String.eqb s text then Some (Node "Module" [no_parameters]) else None.

Definition parse_other_receiver (s : string) : option node :=
  if String.eqb s text then Some (Node "Module" [other_receiver]) else None.

Definition disk : files := {[ "trio/_core/_run.py" := text ]}.

End Sample.

(** The text holds no slash: it is one component of a path. *)
Fixpoint no_slash (s : string) : bool :=
  match s with
  | EmptyString => true
  | String c s' => negb (Ascii.eqb c "/") && no_slash s'
  end.

(** ** The command

    [main] without the parsing of the command line: [test] is the value of
    [--test] and [cwd] is [Path.cwd()]. *)







(** ** More sample inputs *)

Module Nested.

(** A marked method that defines a marked function in its body, after its
    docstring:
<<
    class Runner:
        @_public
        def outer(self):
            "doc"
            @_public
            def inner(self, n): ...
>> *)
Definition inner : node :=
  FunctionDef false "inner"
    (Arguments [] [Sample.param "self"; Sample.param "n"] None [] [] None [])
    [Node "Pass" []] [Sample.public] None.

Definition outer : node :=
  FunctionDef false "outer"
    (Arguments [] [Sample.param "self"] None [] [] None [])
    [Expr (Constant (CStr "doc")); inner] [Sample.public] None.

Definition module : node := Node "Module" [Node "ClassDef" [outer]].

(** A module whose first marked function passes the check and whose
    second one has no parameter. *)
Definition failing : node :=
  Node "Module" [Node "ClassDef" [Sample.f; Sample.no_parameters]].

Definition parse (s : string) : option node :=
  if String.eqb s Sample.text then Some module else None.

End Nested.

Arguments size_arguments : simpl never.
Arguments size_arg : simpl never.

(** * Properties *)

(** ** The store *)

Lemma upd_eq σ l o : upd σ l o l = Some o.
Proof. unfold upd. by rewrite decide_True. Qed.

Lemma upd_ne σ l o l' : l' ≠ l -> upd σ l o l' = σ l'.
Proof. intros. unfold upd. by rewrite decide_False. Qed.

Lemma app_ne_self (m q : loc) : q ≠ [] -> m ++ q ≠ m.
Proof.
  intros Hq Heq. apply Hq.
  apply (app_inv_head m). by rewrite app_nil_r.
Qed.

Lemma subtree_app x p q :
  subtree x (p ++ q) = subtree x p ≫= fun y => subtree y q.
Proof.
  revert x. induction p as [|k p IH]; intros x; simpl; [done|].
  destruct (child x k); simpl; [apply IH | done].
Qed.

Lemma agree_load t : agree (load t) [] (TNode t).
Proof. intros q. reflexivity. Qed.

Lemma agree_here σ m x : agree σ m x -> σ m = cell m x.
Proof. intros H. specialize (H []). by rewrite app_nil_r in H. Qed.

Lemma agree_child σ m x k y :
  agree σ m x -> child x k = Some y -> agree σ (m ++ [k]) y.
Proof.
  intros H Hc q. rewrite <- app_assoc. rewrite H. simpl. by rewrite Hc.
Qed.

(** ** Sizes *)

Lemma size_expr_pos e : 1 <= size_expr e.
Proof. destruct e; simpl; lia. Qed.

Lemma size_pos n : 1 <= size n.
Proof. destruct n; simpl; try lia. apply size_expr_pos. Qed.

Lemma size_value_pos v : 1 <= size_value v.
Proof. destruct v; simpl; try lia; [apply size_expr_pos | unfold size_arg; lia]. Qed.

Lemma size_arguments_pos a : 1 <= size_arguments a.
Proof. unfold size_arguments. lia. Qed.

(** ** Locations *)

Lemma apart_sym l1 l2 : apart l1 l2 -> apart l2 l1.
Proof. intros [H1 H2]. by split. Qed.

Lemma prefix_snoc_inv (x m : loc) i :
  x `prefix_of` m ++ [i] -> x `prefix_of` m ∨ x = m ++ [i].
Proof.
  intros [k Hk]. destruct (decide (k = [])) as [->|Hne].
  - right. by rewrite app_nil_r in Hk.
  - left. destruct (exists_last Hne) as (k' & j & ->).
    rewrite app_assoc in Hk. apply app_inj_tail in Hk as [-> _].
    by exists k'.
Qed.

Lemma apart_child m x i : apart m x -> apart x (m ++ [i]).
Proof.
  intros [H1 H2]. split.
  - intros H. apply prefix_snoc_inv in H as [H| ->]; [done|].
    apply H1. by exists [i].
  - intros [k Hk]. apply H1. exists ([i] ++ k). by rewrite app_assoc.
Qed.

Lemma apart_siblings (m : loc) i j : i ≠ j -> apart (m ++ [i]) (m ++ [j]).
Proof.
  intros Hne. split; intros [k Hk]; rewrite <- app_assoc in Hk;
    apply app_inv_head in Hk; simpl in Hk; congruence.
Qed.

Lemma apart_below m x q : apart m x -> x ++ q ≠ m ∧ x ++ q ≠ m ++ [0].
Proof.
  intros [H1 H2]. split.
  - intros <-. apply H2. by exists q.
  - intros Heq. assert (Hp : x `prefix_of` m ++ [0]) by (by exists q).
    apply prefix_snoc_inv in Hp as [Hp| ->]; [done|].
    apply H1. by exists [0].
Qed.

Lemma child_below (m : loc) i q : m ++ [S i] ++ q ≠ m ∧ m ++ [S i] ++ q ≠ m ++ [0].
Proof.
  split.
  - apply app_ne_self. done.
  - intros H. apply app_inv_head in H. simpl in H. congruence.
Qed.

(** ** The deque of the walk and the queue of the tree *)

Lemma queues_bound σ todo q k k' : queues σ todo q k -> k = k' -> queues σ todo q k'.
Proof. by intros H <-. Qed.

Lemma queues_app σ t1 q1 k1 t2 q2 k2 :
  queues σ t1 q1 k1 -> queues σ t2 q2 k2 ->
  Forall (fun x => Forall (fun y => apart x.1 y.1) q2) q1 ->
  queues σ (t1 ++ t2) (q1 ++ q2) (k1 + k2).
Proof.
  intros H1 H2. induction H1 as [|m n todo q k Hn Hq H1 IH|l a todo q k Hl H1 IH|v todo q k H1 IH];
    intros Hap; cbn [app].
  - done.
  - apply Forall_cons in Hap as [Hm Hap].
    eapply queues_bound; [|apply Nat.add_assoc].
    constructor; [done| |by apply IH].
    apply Forall_app. split; [done|]. done.
  - eapply queues_bound; [|apply Nat.add_assoc].
    constructor; [done|by apply IH].
  - eapply queues_bound; [|apply Nat.add_assoc].
    constructor. by apply IH.
Qed.

Lemma queues_values σ vs :
  queues σ (map Val vs) [] (list_sum (map size_value vs)).
Proof. induction vs; simpl; by constructor. Qed.

Lemma queues_app_values σ todo q k vs :
  queues σ todo q k ->
  queues σ (todo ++ map Val vs) q (k + list_sum (map size_value vs)).
Proof.
  intros H. rewrite <- (app_nil_r q).
  apply queues_app; [done|apply queues_values|].
  apply Forall_forall. intros. constructor.
Qed.

Lemma edits_refl m σ : edits m σ σ.
Proof. split; [done|]. intros a Ha. exists a. split; [done|lia]. Qed.

Lemma agree_edits σ σ' m m' x :
  edits m σ σ' -> (forall q, m' ++ q ≠ m ∧ m' ++ q ≠ m ++ [0]) ->
  agree σ m' x -> agree σ' m' x.
Proof.
  intros [Hf _] Hne H q. rewrite <- H. apply Hf; apply Hne.
Qed.

Lemma queues_edits σ σ' m todo q k :
  edits m σ σ' ->
  (forall a, σ m ≠ Some (OArguments a)) ->
  Forall (fun x => apart m x.1) q ->
  queues σ todo q k ->
  exists k', k' <= k ∧ queues σ' todo q k'.
Proof.
  intros Hed Hm Hap H. revert Hap.
  induction H as [|m' n todo q k Hn Hq H IH|l a todo q k Hl H IH|v todo q k H IH];
    intros Hap.
  - exists 0. split; [lia|constructor].
  - apply Forall_cons in Hap as [Hmm Hap]. simpl in Hmm.
    destruct (IH Hap) as (k' & Hk' & IH').
    exists (size n + k'). split; [lia|].
    constructor; [|done|done].
    destruct n; try done;
      (eapply agree_edits; [done| |done]; intros q0; by apply apart_below).
  - destruct (IH Hap) as (k' & Hk' & IH').
    destruct (decide (l = m ++ [0])) as [->|Hne].
    + destruct Hed as [_ Hed]. destruct (Hed _ Hl) as (a' & Ha' & Hle).
      exists (size_arguments a' + k'). split; [lia|]. by constructor.
    + exists (size_arguments a + k'). split; [lia|]. constructor; [|done].
      destruct Hed as [Hed _]. rewrite Hed; [done| |done].
      intros ->. by eapply Hm.
  - destruct (IH Hap) as (k' & Hk' & IH').
    exists (size_value v + k'). split; [lia|]. by constructor.
Qed.

Lemma list_sum_app' (l1 l2 : list nat) : list_sum (l1 ++ l2) = list_sum l1 + list_sum l2.
Proof. induction l1; simpl; lia. Qed.

Lemma size_option_list {A} (f : A -> nat) (o : option A) :
  list_sum (map f (option_list o)) = size_option f o.
Proof. destruct o; simpl; lia. Qed.

Lemma size_omap_id (l : list (option expr)) :
  list_sum (map size_expr (omap id l)) = list_sum (map (size_option size_expr) l).
Proof. induction l as [|[e|] l IH]; unfold list_sum in *; cbn in *; lia. Qed.

Lemma size_value_children v :
  S (list_sum (map size_value (value_children v))) = size_value v.
Proof.
  destruct v as [[id ctx|c|cls cs]|a|c]; simpl; try done.
  - by rewrite map_map.
  - unfold size_arg. rewrite map_map. simpl. by rewrite size_option_list.
Qed.

Lemma size_arguments_children a :
  S (list_sum (map size_value (arguments_children a))) = size_arguments a.
Proof.
  unfold arguments_children, size_arguments.
  rewrite !map_app, !list_sum_app', !map_map. simpl.
  rewrite !size_option_list, size_omap_id.
  change (fun x : ast_arg => size_arg x) with size_arg.
  change (fun x : expr => size_expr x) with size_expr. lia.
Qed.

Lemma items_at_cons m start c cs :
  items_at m start (c :: cs) = item_of (m ++ [start]) c :: items_at m (S start) cs.
Proof.
  unfold items_at. simpl. rewrite Nat.add_0_r. f_equal.
  apply imap_ext. intros i x _. simpl. do 3 f_equal. lia.
Qed.

Lemma nodes_at_cons m start c cs :
  nodes_at m start (c :: cs) = (m ++ [start], c) :: nodes_at m (S start) cs.
Proof.
  unfold nodes_at. simpl. rewrite Nat.add_0_r. f_equal.
  apply imap_ext. intros i x _. simpl. do 3 f_equal. lia.
Qed.

Lemma nodes_at_apart_sibling m s s' cs :
  s < s' -> Forall (fun x => apart (m ++ [s]) x.1) (nodes_at m s' cs).
Proof.
  revert s'. induction cs as [|c cs IH]; intros s' Hlt; [constructor|].
  rewrite nodes_at_cons. constructor.
  - simpl. apply apart_siblings. lia.
  - apply IH. lia.
Qed.

Lemma nodes_at_apart_outer m x s cs :
  apart m x -> Forall (fun y => apart x y.1) (nodes_at m s cs).
Proof.
  intros Hap. revert s. induction cs as [|c cs IH]; intros s; [constructor|].
  rewrite nodes_at_cons. constructor; [|apply IH].
  simpl. by apply apart_child.
Qed.

Lemma queues_items σ m cs : forall start,
  (forall i c, cs !! i = Some c ->
     match c with Inj _ => True | _ => agree σ (m ++ [start + i]) (TNode c) end) ->
  queues σ (items_at m start cs) (nodes_at m start cs) (list_sum (map size cs)).
Proof.
  induction cs as [|c cs IH]; intros start H; [constructor|].
  rewrite items_at_cons, nodes_at_cons. cbn [map list_sum].
  constructor.
  - specialize (H 0 c eq_refl). rewrite Nat.add_0_r in H. done.
  - apply nodes_at_apart_sibling. lia.
  - apply IH. intros i c' Hc. specialize (H (S i) c' Hc).
    by replace (S start + i) with (start + S i) by lia.
Qed.

Lemma children_apart_outer m x n :
  apart m x -> Forall (fun y => apart x y.1) (children m n).
Proof.
  intros H. destruct n; simpl; try constructor; by apply nodes_at_apart_outer.
Qed.

Lemma queues_children (σ' : store) m n :
  match n with Inj _ => False | _ => True end ->
  (forall k c, child (TNode n) k = Some (TNode c) ->
     match c with Inj _ => True | _ => agree σ' (m ++ [k]) (TNode c) end) ->
  (forall a, child (TNode n) 0 = Some (TArgs a) ->
     exists a', σ' (m ++ [0]) = Some (OArguments a')
                ∧ size_arguments a' <= size_arguments a) ->
  exists o k', cell m (TNode n) = Some o ∧ S k' <= size n
               ∧ queues σ' (obj_children o) (children m n) k'.
Proof.
  intros Hn Hc Ha. destruct n as [b nm a body decs r|v|cls cs|e]; [| | |done].
  - destruct (Ha a eq_refl) as (a' & Ha' & Hle).
    eexists _, _. split; [reflexivity|]. split.
    2:{ cbn [obj_children f_args f_body f_decorator_list f_returns children].
        apply queues_arguments; [exact Ha'|].
        apply queues_app_values. apply queues_items.
        intros i c Hi. apply (Hc (S i) c). simpl. by rewrite Hi. }
    cbn [size]. rewrite map_app, list_sum_app', !map_map. cbn [size_value].
    rewrite size_option_list.
    change (fun x : expr => size_expr x) with size_expr. lia.
  - eexists _, _. split; [reflexivity|]. split.
    2:{ cbn [obj_children children]. apply queues_value. constructor. }
    cbn [size size_value]. lia.
  - eexists _, _. split; [reflexivity|]. split.
    2:{ cbn [obj_children children]. apply queues_items.
        intros i c Hi. apply (Hc i c). simpl. by rewrite Hi. }
    cbn [size]. lia.
Qed.

Lemma is_public_agree σ m n :
  match n with Inj _ => True | _ => agree σ m (TNode n) end ->
  is_public σ (item_of m n) = marked n.
Proof.
  intros H. destruct n as [b nm a body decs r|v|cls cs|e]; try done;
    apply agree_here in H; unfold is_public, is_function,
      isinstance_FunctionDef, isinstance_AsyncFunctionDef;
    cbn [item_of]; rewrite H; cbn; [|done|done].
  by destruct b.
Qed.

Lemma is_public_arguments σ l a :
  σ l = Some (OArguments a) -> is_public σ (Ref l) = false.
Proof.
  intros H. unfold is_public, is_function, isinstance_FunctionDef,
    isinstance_AsyncFunctionDef. by rewrite H.
Qed.

(** ** The walk over the store lists the tree breadth first

    Whatever the body of the loop does to the function it is handed and to
    its [arguments] object, the loop runs the body on the marked functions
    of the tree in breadth-first order. *)

Section Simulation.

Context {A : Type}.
Variable hbody : item -> A -> store -> res (A * store).
Variable body : loc -> node -> A -> res A.
Variable edit : loc -> node -> store -> store.

Hypothesis edit_edits : forall m n σ,
  marked n = true -> agree σ m (TNode n) -> edits m σ (edit m n σ).

Hypothesis hbody_spec : forall m n acc σ,
  marked n = true -> agree σ m (TNode n) ->
  hbody (Ref m) acc σ = (acc' ← body m n acc; Ok (acc', edit m n σ)).

Lemma queues_step σ σ' m n todo q k :
  match n with Inj _ => False | _ => True end ->
  agree σ m (TNode n) ->
  edits m σ σ' ->
  (marked n = false -> σ' = σ) ->
  Forall (fun x => apart m x.1) q ->
  queues σ todo q k ->
  exists o k', σ m = Some o ∧ S k' <= size n + k
    ∧ queues σ' (todo ++ obj_children o) (q ++ children m n) k'.
Proof.
  intros Hn Hag Hed Hsame Hap Hq.
  destruct (queues_children σ' m n Hn) as (o & k1 & Ho & Hk1 & Hq1).
  - intros i c Hc. destruct c; try done;
      pose proof (agree_child _ _ _ _ _ Hag Hc) as Hag';
      (destruct (marked n) eqn:Hmk;
       [|by rewrite Hsame]);
      (destruct n; try done; destruct i; try done;
       eapply agree_edits; [done| |done]; intros q0;
       rewrite <- app_assoc; apply child_below).
  - intros a Ha. destruct Hed as [_ Hed]. apply Hed.
    pose proof (agree_child _ _ _ _ _ Hag Ha) as Hag'.
    by apply agree_here in Hag'.
  - destruct (queues_edits σ σ' m todo q k Hed) as (k2 & Hk2 & Hq2); [|done|done|].
    { intros a Ha. apply agree_here in Hag. rewrite Hag in Ha.
      destruct n; done. }
    exists o, (k2 + k1). split; [by rewrite (agree_here _ _ _ Hag)|].
    split; [lia|].
    apply queues_app; [done|done|].
    eapply Forall_impl; [exact Hap|]. intros x Hx.
    by apply children_apart_outer.
Qed.

Lemma filter_marked_cons x (l : list (loc * node)) :
  filter marked_at (x :: l)
  = if marked x.2 then x :: filter marked_at l else filter marked_at l.
Proof.
  rewrite filter_cons. case_decide as H; unfold marked_at in H;
    destruct (marked x.2); done.
Qed.

Lemma for_public_methods_queues fuel : forall fuel' todo q k acc σ,
  queues σ todo q k -> k <= fuel -> k <= fuel' ->
  for_public_methods hbody fuel todo acc σ
  = run body edit (filter marked_at (bfs fuel' q)) acc σ.
Proof.
  induction fuel as [|fuel IH]; intros fuel' todo q k acc σ Hq Hk Hk'.
  - destruct Hq as [|m n todo q k Hn Hap Hq|l a todo q k Hl Hq|v todo q k Hq].
    + simpl. by destruct fuel'.
    + pose proof (size_pos n). lia.
    + pose proof (size_arguments_pos a). lia.
    + pose proof (size_value_pos v). lia.
  - destruct Hq as [|m n todo' q' k0 Hn Hap Hq'|l a todo' q' k0 Hl Hq'|v todo' q' k0 Hq'].
    + simpl. by destruct fuel'.
    + pose proof (size_pos n) as Hpos.
      destruct fuel' as [|fuel']; [lia|].
      cbn [bfs fst snd]. rewrite filter_marked_cons. cbn [snd].
      cbn [for_public_methods walk_next].
      assert ((exists e, n = Inj e) ∨
              (item_of m n = Ref m ∧ match n with Inj _ => False | _ => True end
               ∧ agree σ m (TNode n))) as [[e ->]|(Hit & Hobj & Hag)]
        by (destruct n; eauto).
      * (* an expression kept by value *)
        cbn [item_of iter_child_nodes]. cbn [mbind res_bind].
        change (is_public σ (Val (VExpr e))) with false. cbn iota.
        cbn [marked children]. rewrite app_nil_r.
        eapply IH.
        -- apply queues_app_values. exact Hq'.
        -- pose proof (size_value_children (VExpr e)) as Hs.
           cbn [size size_value] in *. lia.
        -- pose proof (size_value_children (VExpr e)) as Hs.
           cbn [size size_value] in *. lia.
      * pose proof (is_public_agree σ m n Hn) as Hpub.
        rewrite Hit in Hpub |- *. cbn [iter_child_nodes].
        destruct (marked n) eqn:Hmk.
        -- destruct (queues_step σ (edit m n σ) m n todo' q' k0)
             as (o & k' & Ho & Hk0 & Hq1);
             [done|done|by apply edit_edits|congruence|done|done|].
           rewrite Ho; cbn [mbind res_bind]; rewrite Hpub.
           rewrite (hbody_spec m n acc σ Hmk Hag); cbn [run].
           destruct (body m n acc) as [acc'| |]; cbn [mbind res_bind fst snd];
             [|done|done].
           eapply IH; [exact Hq1|lia|lia].
        -- destruct (queues_step σ σ m n todo' q' k0)
             as (o & k' & Ho & Hk0 & Hq1);
             [done|done|apply edits_refl|done|done|done|].
           rewrite Ho; cbn [mbind res_bind]; rewrite Hpub.
           eapply IH; [exact Hq1|lia|lia].
    + cbn [for_public_methods walk_next iter_child_nodes]. rewrite Hl.
      cbn [mbind res_bind obj_children]. rewrite (is_public_arguments _ _ _ Hl).
      eapply IH.
      * apply queues_app_values. exact Hq'.
      * pose proof (size_arguments_children a). lia.
      * pose proof (size_arguments_children a). lia.
    + cbn [for_public_methods walk_next iter_child_nodes].
      cbn [mbind res_bind]. change (is_public σ (Val v)) with false. cbn iota.
      eapply IH.
      * apply queues_app_values. exact Hq'.
      * pose proof (size_value_children v). lia.
      * pose proof (size_value_children v). lia.
Qed.

End Simulation.

(** ** The body of the loop on a function of the tree *)

Lemma fold_left_snoc {X Y} (f : X -> Y) (l : list X) (init : list Y) :
  fold_left (fun acc x => acc ++ [f x]) l init = init ++ map f l.
Proof.
  revert init. induction l as [|x l IH]; intros init; simpl.
  - by rewrite app_nil_r.
  - rewrite IH. by rewrite <- app_assoc.
Qed.

Lemma create_passthrough_args_eq σ m f a :
  σ m = Some (OFunctionDef f) -> σ (f_args f) = Some (OArguments a) ->
  create_passthrough_args σ (Ref m) = Ok (passthrough a).
Proof.
  intros Hm Ha. unfold create_passthrough_args, read_function, read_arguments.
  rewrite Hm. cbn [mbind res_bind snd]. rewrite Ha. cbn [mbind res_bind].
  unfold passthrough. do 3 f_equal.
  destruct (vararg a) as [v|], (kwarg a) as [k|];
    rewrite !fold_left_snoc; cbn [app]; rewrite <- ?app_assoc, ?app_nil_r;
    reflexivity.
Qed.

Lemma has_docstring_cell σ m body :
  match body with
  | c :: _ => σ (m ++ [1]) = cell (m ++ [1]) (TNode c)
  | [] => True
  end ->
  (if has_docstring σ (items_at m 1 body) then take 1 (items_at m 1 body)
   else [])
  = items_at m 1 (docstring_only body).
Proof.
  intros Hc. destruct body as [|c body]; [done|].
  rewrite items_at_cons.
  destruct c as [b nm a' body' decs' r'|v|cls cs|e]; cbn [item_of has_docstring];
    rewrite ?Hc; try done.
  cbn [cell docstring_only]. by destruct v as [| [] |].
Qed.

Lemma reify_docstring σ m body :
  match body with
  | c :: _ => σ (m ++ [1]) = cell (m ++ [1]) (TNode c)
  | [] => True
  end ->
  mapM (reify 1 σ) (items_at m 1 (docstring_only body))
  = Some (docstring_only body).
Proof.
  intros Hc. destruct body as [|c body]; [done|].
  destruct c as [| [| [] |] | |]; try done.
  cbn. by rewrite Hc.
Qed.

Lemma reify_function fuel σ l f a :
  σ l = Some (OFunctionDef f) -> σ (f_args f) = Some (OArguments a) ->
  reify (S fuel) σ (Ref l)
  = (body ← mapM (reify fuel σ) (f_body f);
     Some (FunctionDef (f_async f) (f_name f) a body (f_decorator_list f)
             (f_returns f))).
Proof. intros Hl Ha. cbn [reify]. by rewrite Hl, Ha. Qed.

Section Body.

Variable to_source : node -> string.

Lemma wrap_method_agree file σ m n :
  marked n = true -> agree σ m (TNode n) ->
  wrap_method to_source file (Ref m) σ
  = (s ← wrapper to_source file n; Ok (s, strip m n σ)).
Proof.
  intros Hmk Hag. destruct n as [b nm a body decs r| | |]; try done.
  pose proof (agree_here _ _ _ Hag) as Hm. cbn [cell] in Hm.
  assert (Ha : σ (m ++ [0]) = Some (OArguments a)).
  { apply (agree_here σ (m ++ [0]) (TArgs a)). by eapply agree_child. }
  assert (Hb : match body with
               | c :: _ => σ (m ++ [1]) = cell (m ++ [1]) (TNode c)
               | [] => True
               end).
  { destruct body as [|c body]; [done|].
    apply (agree_here σ (m ++ [1]) (TNode c)). by eapply agree_child. }
  assert (Hne : m ++ [0] ≠ m) by (by apply app_ne_self).
  assert (Hne1 : m ++ [1] ≠ m) by (by apply app_ne_self).
  assert (Hne2 : m ++ [1] ≠ m ++ [0]) by (intros H; by apply app_inv_head in H).
  unfold wrap_method, wrapper, check_receiver.
  cbn [read_function]. rewrite Hm. cbn [mbind res_bind snd f_args].
  unfold read_arguments at 1. rewrite Ha. cbn [mbind res_bind].
  destruct (args a) as [|first rest] eqn:Hargs; [done|].
  destruct (String.eqb (arg first) "self") eqn:Hself; cbn [negb]; [|done].
  cbn [mbind res_bind].
  rewrite (upd_ne _ _ _ m) by done. rewrite Hm. cbn [mbind res_bind fst snd].
  cbn [f_async f_name f_args f_body f_decorator_list f_returns].
  assert (Hwr : Arguments (posonlyargs a) rest (vararg a) (kwonlyargs a)
                  (kw_defaults a) (kwarg a) (defaults a) = without_receiver a).
  { unfold without_receiver. by rewrite Hargs. }
  rewrite Hwr.
  match goal with
  | |- context [create_passthrough_args ?s _] => set (σ2 := s)
  end.
  erewrite (create_passthrough_args_eq σ2 m _ (without_receiver a)).
  2:{ unfold σ2. apply upd_eq. }
  2:{ cbn [f_args]. unfold σ2. rewrite upd_ne by done. apply upd_eq. }
  cbn [mbind res_bind read_function].
  assert (H2m : σ2 m = Some (OFunctionDef
                  (Function b nm (m ++ [0]) (items_at m 1 body) [] r)))
    by apply upd_eq.
  rewrite H2m.
  cbn [mbind res_bind fst snd].
  cbn [f_async f_name f_args f_body f_decorator_list f_returns].
  assert (Hb2 : match body with
                | c :: _ => σ2 (m ++ [1]) = cell (m ++ [1]) (TNode c)
                | [] => True
                end).
  { destruct body; [done|]. unfold σ2. by rewrite !upd_ne by done. }
  rewrite (has_docstring_cell σ2 m body Hb2).
  match goal with
  | |- context [to_source_at _ ?s _] => set (σ3 := s)
  end.
  assert (Hb3 : match body with
                | c :: _ => σ3 (m ++ [1]) = cell (m ++ [1]) (TNode c)
                | [] => True
                end).
  { destruct body; [done|]. unfold σ3. by rewrite upd_ne by done. }
  assert (H3m : σ3 m = Some (OFunctionDef
                  (Function b nm (m ++ [0])
                     (items_at m 1 (docstring_only body)) [] r)))
    by apply upd_eq.
  assert (H3a : σ3 (m ++ [0]) = Some (OArguments (without_receiver a))).
  { unfold σ3, σ2. rewrite !(upd_ne _ m) by done. apply upd_eq. }
  unfold to_source_at. rewrite (reify_function 1 σ3 m _ _ H3m H3a).
  cbn [f_async f_name f_args f_body f_decorator_list f_returns].
  rewrite (reify_docstring σ3 m body Hb3). cbn [mbind option_bind].
  cbn [mbind res_bind].
  unfold isinstance_AsyncFunctionDef. rewrite H3m.
  cbn [f_async]. unfold snippet, rendered, forwarded, forwarding_call, asynchronous.
  reflexivity.
Qed.

Lemma strip_edits m n σ :
  marked n = true -> agree σ m (TNode n) -> edits m σ (strip m n σ).
Proof.
  intros Hmk Hag. destruct n as [b nm a body decs r| | |]; try done.
  split.
  - intros l H1 H2. cbn [strip]. by rewrite !upd_ne by done.
  - intros a0 Ha0. exists (without_receiver a). split.
    + cbn [strip]. rewrite !(upd_ne _ m) by (by apply app_ne_self).
      apply upd_eq.
    + assert (Ha : σ (m ++ [0]) = Some (OArguments a)).
      { apply (agree_here σ (m ++ [0]) (TArgs a)). by eapply agree_child. }
      assert (a0 = a) as -> by congruence.
      unfold size_arguments, without_receiver.
      cbn [posonlyargs args vararg kwonlyargs kw_defaults kwarg defaults].
      destruct (args a); cbn [tail map]; unfold list_sum; cbn [fold_right]; lia.
Qed.

End Body.

(** ** The loop on a parsed tree *)

Lemma queues_root t : queues (load t) [root t] [([], t)] (size t + 0).
Proof.
  apply queues_node; [|constructor|constructor].
  destruct t; try done; apply agree_load.
Qed.

Lemma run_collect l : forall (acc : list item) σ,
  run (fun m _ acc => Ok (acc ++ [Ref m])) (fun _ _ σ => σ) l acc σ
  = Ok (acc ++ map (fun x => Ref x.1) l, σ).
Proof.
  induction l as [|[m n] l IH]; intros acc σ; cbn [run map].
  - by rewrite app_nil_r.
  - cbn [mbind res_bind]. rewrite IH. by rewrite <- app_assoc.
Qed.

Lemma get_public_methods_load t extra :
  get_public_methods (size t + extra) (load t) (root t)
  = Ok (map (fun x => Ref x.1) (public_methods t)).
Proof.
  unfold get_public_methods.
  rewrite (for_public_methods_queues _ (fun m _ acc => Ok (acc ++ [Ref m]))
             (fun _ _ σ => σ)) with (fuel' := size t) (q := [([], t)])
             (k := size t + 0).
  - fold (breadth_first t). fold (public_methods t). by rewrite run_collect.
  - intros. apply edits_refl.
  - done.
  - apply queues_root.
  - lia.
  - lia.
Qed.

Section Loop.

Variable to_source : node -> string.

Lemma run_wrappers file l : forall (acc : list string) σ,
  run (fun _ n acc => s ← wrapper to_source file n; Ok (acc ++ [s])) strip l acc σ
  = (ss ← wrappers to_source file l; Ok (acc ++ ss, strips l σ)).
Proof.
  induction l as [|[m n] l IH]; intros acc σ; cbn [run wrappers].
  - cbn. by rewrite app_nil_r.
  - cbn [snd]. destruct (wrapper to_source file n) as [s| |]; cbn [mbind res_bind];
      [|done|done].
    rewrite IH. destruct (wrappers to_source file l) as [ss| |];
      cbn [mbind res_bind]; [|done|done].
    by rewrite <- app_assoc.
Qed.

(** The loop runs the body on the marked functions of the tree, in the
    order of the walk, and never runs out of fuel. *)
Lemma wrap_methods_load file t :
  wrap_methods to_source file t
  = (ss ← wrappers to_source file (public_methods t);
     Ok (header file :: ss, strips (public_methods t) (load t))).
Proof.
  unfold wrap_methods.
  rewrite (for_public_methods_queues _
             (fun _ n acc => s ← wrapper to_source file n; Ok (acc ++ [s]))
             strip) with (fuel' := size t) (q := [([], t)]) (k := size t + 0).
  - fold (breadth_first t). fold (public_methods t). by rewrite run_wrappers.
  - apply strip_edits.
  - intros m n acc σ Hmk Hag. rewrite (wrap_method_agree _ _ _ _ _ Hmk Hag).
    by destruct (wrapper to_source file n).
  - apply queues_root.
  - lia.
  - lia.
Qed.

End Loop.

(** ** The two orders list the same nodes *)

Lemma node_ind' (P : node -> Prop) :
  (forall b nm a body decs r, Forall P body -> P (FunctionDef b nm a body decs r)) ->
  (forall v, P (Expr v)) ->
  (forall cls cs, Forall P cs -> P (Node cls cs)) ->
  (forall e, P (Inj e)) ->
  forall n, P n.
Proof.
  intros HF HE HN HI. fix IH 1.
  intros [b nm a body decs r|v|cls cs|e].
  - apply HF. induction body as [|c body IHb]; constructor; [apply IH|apply IHb].
  - apply HE.
  - apply HN. induction cs as [|c cs IHc]; constructor; [apply IH|apply IHc].
  - apply HI.
Qed.

Lemma preorder_eq p n :
  preorder p n
  = match n with
    | FunctionDef _ _ _ body _ _ => (p, n) :: preorder_from p 1 body
    | Node _ cs => (p, n) :: preorder_from p 0 cs
    | _ => [(p, n)]
    end.
Proof.
  destruct n as [b nm a body decs r|v|cls cs|e]; cbn [preorder]; try done; f_equal.
  - generalize 1. induction body as [|c body IH]; intros i; cbn; [done|].
    by rewrite IH.
  - generalize 0. induction cs as [|c cs IH]; intros i; cbn; [done|].
    by rewrite IH.
Qed.

Lemma preorder_from_children p i cs :
  preorder_from p i cs = flat_map (fun x => preorder x.1 x.2) (nodes_at p i cs).
Proof.
  revert i. induction cs as [|c cs IH]; intros i; [done|].
  rewrite nodes_at_cons. cbn [preorder_from flat_map fst snd]. by rewrite IH.
Qed.

Lemma preorder_children p n :
  preorder p n = (p, n) :: flat_map (fun x => preorder x.1 x.2) (children p n).
Proof.
  rewrite preorder_eq. destruct n; cbn [children flat_map]; try done;
    by rewrite preorder_from_children.
Qed.

Lemma size_nodes_at p i cs :
  list_sum (map (fun x => size x.2) (nodes_at p i cs)) = list_sum (map size cs).
Proof.
  revert i. induction cs as [|c cs IH]; intros i; [done|].
  rewrite nodes_at_cons. cbn [map list_sum snd]. unfold list_sum in *.
  cbn [fold_right]. by rewrite IH.
Qed.

Lemma size_children p n :
  S (list_sum (map (fun x => size x.2) (children p n))) <= size n.
Proof.
  destruct n as [b nm a body decs r|v|cls cs|e]; cbn [children size];
    rewrite ?size_nodes_at.
  - lia.
  - simpl. lia.
  - lia.
  - pose proof (size_expr_pos e). simpl. lia.

Qed.

Lemma bfs_preorder fuel : forall q,
  list_sum (map (fun x => size x.2) q) <= fuel ->
  bfs fuel q ≡ₚ flat_map (fun x => preorder x.1 x.2) q.
Proof.
  induction fuel as [|fuel IH]; intros q Hq.
  - destruct q as [|[p n] q]; [done|]. cbn [map list_sum snd] in Hq.
    pose proof (size_pos n). unfold list_sum in Hq. cbn [fold_right] in Hq. lia.
  - destruct q as [|[p n] q]; [done|].
    cbn [bfs flat_map fst snd]. rewrite preorder_children.
    cbn [app]. constructor.
    rewrite IH.
    + rewrite flat_map_app. apply Permutation_app_comm.
    + rewrite map_app, list_sum_app'.
      pose proof (size_children p n).
      cbn [map snd] in Hq. unfold list_sum in *. cbn [fold_right] in Hq. lia.
Qed.

Lemma breadth_first_preorder t : breadth_first t ≡ₚ preorder [] t.
Proof.
  unfold breadth_first. rewrite bfs_preorder.
  - cbn [flat_map fst snd]. by rewrite app_nil_r.
  - cbn. lia.
Qed.

Lemma subtree_arguments a q x : subtree (TArgs a) q = Some (TNode x) -> False.
Proof. destruct q; simpl; congruence. Qed.

Lemma elem_of_preorder_from p l x cs : forall i,
  Forall (fun c => forall p, (l, x) ∈ preorder p c
                   <-> exists q, l = p ++ q ∧ subtree (TNode c) q = Some (TNode x)) cs ->
  (l, x) ∈ preorder_from p i cs
  <-> exists j c q, cs !! j = Some c ∧ l = p ++ [i + j] ++ q
                    ∧ subtree (TNode c) q = Some (TNode x).
Proof.
  induction cs as [|c cs IH]; intros i Hcs.
  - cbn. split; [by intros ?%elem_of_nil|]. by intros (j & c & q & ? & _).
  - apply Forall_cons in Hcs as [Hc Hcs]. cbn [preorder_from].
    rewrite elem_of_app, Hc, (IH (S i) Hcs). split.
    + intros [(q & -> & Hq)|(j & c' & q & Hj & -> & Hq)].
      * exists 0, c, q. rewrite Nat.add_0_r, <- app_assoc. done.
      * exists (S j), c', q. replace (i + S j) with (S i + j) by lia. done.
    + intros ([|j] & c' & q & Hj & -> & Hq).
      * left. injection Hj as ->. exists q.
        rewrite Nat.add_0_r, <- app_assoc. done.
      * right. exists j, c', q. replace (S i + j) with (i + S j) by lia. done.
Qed.

(** The nodes that either order lists are the nodes of the tree, at every
    depth. *)
Lemma elem_of_preorder n : forall p l x,
  (l, x) ∈ preorder p n
  <-> exists q, l = p ++ q ∧ subtree (TNode n) q = Some (TNode x).
Proof.
  induction n as [b nm a body decs r IH|v|cls cs IH|e] using node_ind';
    intros p l x; rewrite preorder_eq.
  - rewrite elem_of_cons, elem_of_preorder_from
      by (eapply Forall_impl; [exact IH|]; intros c Hc p'; apply Hc).
    split.
    + intros [[= -> ->]|(j & c & q & Hj & -> & Hq)].
      * exists []. by rewrite app_nil_r.
      * exists ((1 + j) :: q). split; [done|]. cbn. by rewrite Hj.
    + intros ([|[|j] q] & -> & Hq).
      * left. rewrite app_nil_r. cbn in Hq. by simplify_eq.
      * cbn in Hq. by apply subtree_arguments in Hq.
      * right. cbn in Hq. destruct (body !! j) as [c|] eqn:Hj; [|done].
        exists j, c, q. done.
  - rewrite list_elem_of_singleton. split.
    + intros [= -> ->]. exists []. by rewrite app_nil_r.
    + intros ([|k q] & -> & Hq); [|done]. rewrite app_nil_r. cbn in Hq. by simplify_eq.
  - rewrite elem_of_cons, elem_of_preorder_from
      by (eapply Forall_impl; [exact IH|]; intros c Hc p'; apply Hc).
    split.
    + intros [[= -> ->]|(j & c & q & Hj & -> & Hq)].
      * exists []. by rewrite app_nil_r.
      * exists ((0 + j) :: q). split; [done|]. cbn. by rewrite Hj.
    + intros ([|j q] & -> & Hq).
      * left. rewrite app_nil_r. cbn in Hq. by simplify_eq.
      * right. cbn in Hq. destruct (cs !! j) as [c|] eqn:Hj; [|done].
        exists j, c, q. done.
  - rewrite list_elem_of_singleton. split.
    + intros [= -> ->]. exists []. by rewrite app_nil_r.
    + intros ([|k q] & -> & Hq); [|done]. rewrite app_nil_r. cbn in Hq. by simplify_eq.
Qed.

Lemma elem_of_breadth_first t l x :
  (l, x) ∈ breadth_first t <-> node_at t l = Some x.
Proof.
  rewrite breadth_first_preorder, elem_of_preorder. unfold node_at. split.
  - intros (q & -> & Hq). cbn. by rewrite Hq.
  - intros H. exists l. split; [done|].
    destruct (subtree (TNode t) l) as [[n|a]|]; congruence.
Qed.

(** ** No location is listed twice *)

Lemma elem_of_preorder_from_prefix p i cs l x :
  (l, x) ∈ preorder_from p i cs -> exists j q, l = p ++ [i + j] ++ q.
Proof.
  rewrite elem_of_preorder_from.
  - intros (j & c & q & _ & -> & _). eauto.
  - apply Forall_forall. intros c _ p'. apply elem_of_preorder.
Qed.

Lemma NoDup_preorder_from p cs : forall i,
  Forall (fun c => forall p, NoDup (preorder p c).*1) cs ->
  NoDup (preorder_from p i cs).*1.
Proof.
  induction cs as [|c cs IH]; intros i Hcs; [constructor|].
  apply Forall_cons in Hcs as [Hc Hcs]. cbn [preorder_from].
  rewrite fmap_app. apply NoDup_app. split; [apply Hc|]. split; [|by apply IH].
  intros l [[l1 x1] [-> H1]]%list_elem_of_fmap [[l2 x2] [Heq H2]]%list_elem_of_fmap.
  cbn in Heq. subst l2.
  apply elem_of_preorder in H1 as (q1 & -> & _).
  apply elem_of_preorder_from_prefix in H2 as (j & q2 & Heq).
  rewrite <- !app_assoc in Heq. apply app_inv_head in Heq.
  cbn in Heq. injection Heq as Heq _. lia.
Qed.

Lemma NoDup_preorder n : forall p, NoDup (preorder p n).*1.
Proof.
  induction n as [b nm a body decs r IH|v|cls cs IH|e] using node_ind';
    intros p; rewrite preorder_eq; cbn [fmap list_fmap fst].
  - constructor; [|by apply NoDup_preorder_from].
    intros [[l x] [Heq H]]%list_elem_of_fmap. cbn in Heq. subst l.
    apply elem_of_preorder_from_prefix in H as (j & q & Heq).
    symmetry in Heq. by apply app_ne_self in Heq.
  - apply NoDup_singleton.
  - constructor; [|by apply NoDup_preorder_from].
    intros [[l x] [Heq H]]%list_elem_of_fmap. cbn in Heq. subst l.
    apply elem_of_preorder_from_prefix in H as (j & q & Heq).
    symmetry in Heq. by apply app_ne_self in Heq.
  - apply NoDup_singleton.
Qed.

Lemma NoDup_filter_fst (P : loc * node -> bool) (l : list (loc * node)) :
  NoDup l.*1 -> NoDup (filter P l).*1.
Proof.
  induction l as [|x l IH]; [done|]. cbn [fmap list_fmap].
  intros [Hx Hl]%NoDup_cons. rewrite filter_cons.
  case_decide; [|by apply IH]. cbn [fmap list_fmap]. constructor; [|by apply IH].
  intros [y [Heq Hy]]%list_elem_of_fmap. apply Hx.
  apply list_elem_of_filter in Hy as [_ Hy].
  apply list_elem_of_fmap. eauto.
Qed.

Lemma NoDup_public_methods t : NoDup (public_methods t).*1.
Proof.
  unfold public_methods. apply NoDup_filter_fst.
  rewrite breadth_first_preorder. apply NoDup_preorder.
Qed.

Lemma elem_of_public_methods t l x :
  (l, x) ∈ public_methods t <-> node_at t l = Some x ∧ marked x = true.
Proof.
  unfold public_methods. rewrite list_elem_of_filter, elem_of_breadth_first.
  unfold marked_at. cbn [snd]. split.
  - intros [Hm Hx]. split; [done|]. by destruct (marked x).
  - intros [Hx Hm]. by rewrite Hm.
Qed.

(** ** What the loop leaves in the store *)

Lemma strip_frame m n σ l : l ≠ m -> l ≠ m ++ [0] -> strip m n σ l = σ l.
Proof.
  intros H1 H2. destruct n; cbn [strip]; [|done..]. by rewrite !upd_ne by done.
Qed.

Lemma strips_cons x l σ : strips (x :: l) σ = strips l (strip x.1 x.2 σ).
Proof. reflexivity. Qed.

Lemma strips_frame l : forall σ k,
  (forall x, x ∈ l -> k ≠ x.1 ∧ k ≠ x.1 ++ [0]) -> strips l σ k = σ k.
Proof.
  induction l as [|x l IH]; intros σ k Hk; [done|].
  rewrite strips_cons, IH.
  - apply strip_frame; apply Hk; left.
  - intros y Hy. apply Hk. by right.
Qed.

Lemma strips_function l : forall σ m b nm a body decs r,
  NoDup l.*1 ->
  (m, FunctionDef b nm a body decs r) ∈ l ->
  (forall x, x ∈ l -> m ≠ x.1 ++ [0]) ->
  strips l σ m
  = Some (OFunctionDef
            (Function b nm (m ++ [0]) (items_at m 1 (docstring_only body)) [] r)).
Proof.
  induction l as [|x l IH]; intros σ m b nm a body decs r Hnd Hin Hne.
  - by apply elem_of_nil in Hin.
  - cbn [fmap list_fmap] in Hnd. apply NoDup_cons in Hnd as [Hx Hnd].
    rewrite strips_cons. apply elem_of_cons in Hin as [<-|Hin].
    + rewrite strips_frame.
      * cbn [strip fst snd]. apply upd_eq.
      * intros y Hy. split; [|apply Hne; by right].
        intros ->. apply Hx. apply list_elem_of_fmap. by exists y.
    + eapply IH; [done|done|]. intros y Hy. apply Hne. by right.
Qed.

Lemma strips_arguments l : forall σ m b nm a body decs r,
  NoDup l.*1 ->
  (m, FunctionDef b nm a body decs r) ∈ l ->
  (forall x, x ∈ l -> m ++ [0] ≠ x.1) ->
  strips l σ (m ++ [0]) = Some (OArguments (without_receiver a)).
Proof.
  induction l as [|x l IH]; intros σ m b nm a body decs r Hnd Hin Hne.
  - by apply elem_of_nil in Hin.
  - cbn [fmap list_fmap] in Hnd. apply NoDup_cons in Hnd as [Hx Hnd].
    rewrite strips_cons. apply elem_of_cons in Hin as [<-|Hin].
    + rewrite strips_frame.
      * cbn [strip fst snd]. rewrite !(upd_ne _ m) by (by apply app_ne_self).
        apply upd_eq.
      * intros y Hy. split; [apply Hne; by right|].
        intros Heq. apply app_inv_tail in Heq as ->.
        apply Hx. apply list_elem_of_fmap. by exists y.
    + eapply IH; [done|done|]. intros y Hy. apply Hne. by right.
Qed.

Lemma node_at_arguments t m n :
  node_at t m = Some n -> marked n = true -> node_at t (m ++ [0]) = None.
Proof.
  unfold node_at. rewrite subtree_app.
  destruct (subtree (TNode t) m) as [[n'|a]|]; [|done..].
  intros [= ->] Hm. by destruct n.
Qed.

(** ** Text *)

Lemma str_app_cons c (s1 s2 : string) : String c s1 +:+ s2 = String c (s1 +:+ s2).
Proof. reflexivity. Qed.

Lemma str_app_assoc (s1 s2 s3 : string) : (s1 +:+ s2) +:+ s3 = s1 +:+ (s2 +:+ s3).
Proof.
  induction s1 as [|c s1 IH]; [done|]. rewrite !str_app_cons. by f_equal.
Qed.

Lemma str_app_nil_r (s : string) : s +:+ "" = s.
Proof. induction s as [|c s IH]; [done|]. rewrite str_app_cons. by f_equal. Qed.

Lemma no_linebreak_app s1 s2 :
  no_linebreak (s1 +:+ s2) = no_linebreak s1 && no_linebreak s2.
Proof.
  induction s1 as [|c s1 IH]; [done|]. rewrite str_app_cons.
  cbn [no_linebreak]. rewrite IH. by rewrite andb_assoc.
Qed.

Lemma blank_app s1 s2 : Str.blank (s1 +:+ s2) = Str.blank s1 && Str.blank s2.
Proof.
  induction s1 as [|c s1 IH]; [done|]. rewrite str_app_cons.
  cbn [Str.blank]. rewrite IH. by rewrite andb_assoc.
Qed.

Lemma splitlines_from_nobreak s : forall line rest,
  no_linebreak s = true ->
  Str.splitlines_from line (s +:+ rest) = Str.splitlines_from (line +:+ s) rest.
Proof.
  induction s as [|c s IH]; intros line rest Hs.
  - by rewrite str_app_nil_r.
  - cbn [no_linebreak] in Hs. apply andb_true_iff in Hs as [Hc Hs].
    apply andb_true_iff in Hc as [Hcr Hlb].
    apply negb_true_iff in Hcr, Hlb.
    rewrite str_app_cons. cbn [Str.splitlines_from]. rewrite Hcr, Hlb.
    rewrite IH by done. by rewrite str_app_assoc.
Qed.

Lemma splitlines_line s line rest :
  no_linebreak s = true ->
  Str.splitlines_from line (s +:+ String "010" rest)
  = (line +:+ s +:+ Str.nl) :: Str.splitlines_from "" rest.
Proof.
  intros Hs. rewrite splitlines_from_nobreak by done.
  cbn [Str.splitlines_from]. change (Str.is_cr "010") with false.
  change (Str.is_linebreak "010") with true. cbn iota.
  by rewrite str_app_assoc.
Qed.

Lemma indent_template (b : bool) modname call :
  no_linebreak (modname +:+ "." +:+ call) = true ->
  Str.indent (TEMPLATE (if b then " await " else " ") modname call) "    "
  = delegation b modname call.
Proof.
  intros Hs.
  set (a := if b then " await " else " ").
  set (l3 := "    return" +:+ a +:+ "GLOBAL_RUN_CONTEXT." +:+ modname +:+ "." +:+ call).
  assert (H3 : no_linebreak l3 = true).
  { unfold l3. do 3 rewrite no_linebreak_app. rewrite Hs.
    unfold a. by destruct b. }
  assert (B3 : Str.blank ("" +:+ l3 +:+ Str.nl) = false).
  { unfold l3. rewrite !blank_app. reflexivity. }
  assert (E : TEMPLATE a modname call
              = "locals()[LOCALS_KEY_KI_PROTECTION_ENABLED] = True" +:+ String "010"
                ("try:" +:+ String "010"
                 (l3 +:+ String "010"
                  ("except AttributeError:" +:+ String "010"
                   (("    raise RuntimeError(" +:+ Str.dq
                       +:+ "must be called from async context" +:+ Str.dq +:+ ")")
                    +:+ String "010" ""))))).
  { unfold TEMPLATE, l3. rewrite !str_app_assoc. reflexivity. }
  unfold Str.indent, Str.splitlines. rewrite E.
  rewrite !splitlines_line by (done || reflexivity).
  cbn [Str.splitlines_from map]. rewrite B3.
  cbn [Str.concat].
  unfold delegation. fold a. unfold l3.
  rewrite !str_app_assoc. reflexivity.
Qed.

(** ** The driver *)


Lemma elem_of_dict_set d k v k' v' :
  (k', v') ∈ dict_set d k v -> (k', v') ∈ d ∨ (k' = k ∧ v' = v).
Proof.
  induction d as [|[k0 v0] d IH]; cbn [dict_set].
  - intros [= -> ->]%list_elem_of_singleton. by right.
  - destruct (String.eqb k0 k) eqn:Heq.
    + apply String.eqb_eq in Heq as ->.
      intros [[= -> ->]|Hin]%elem_of_cons; [by right|]. left. by right.
    + intros [[= -> ->]|Hin]%elem_of_cons; [left; by left|].
      destruct (IH Hin) as [H|H]; [left; by right|by right].
Qed.

Lemma dict_set_keys d k v k' :
  k' ∈ d.*1 ∨ k' = k -> k' ∈ (dict_set d k v).*1.
Proof.
  induction d as [|[k0 v0] d IH]; cbn [dict_set fmap list_fmap].
  - intros [H| ->]; [by apply elem_of_nil in H|]. apply list_elem_of_here.
  - destruct (String.eqb k0 k) eqn:Heq; cbn [fmap list_fmap fst].
    + apply String.eqb_eq in Heq as ->. intros [H| ->]; [done|]. by left.
    + intros [[->|H]%elem_of_cons| ->].
      * by left.
      * right. apply IH. by left.
      * right. apply IH. by right.
Qed.

Section Driver.

Variable to_source : node -> string.
Variable parse : string -> option node.

Lemma scan_disk files_ : forall new_files w,
  disk (scan to_source parse files_ new_files w).2 = disk w.
Proof.
  induction files_ as [|file files_ IH]; intros new_files w; cbn [scan]; [done|].
  destruct (gen_public_wrappers_source _ _ _ _); [|done..].
  destruct (Path.split (path file)). by rewrite IH.
Qed.

(** The entries that the first loop adds are the texts generated for the
    files, each under the output path of its file. *)
Lemma scan_entries files_ : forall new_files w d w',
  scan to_source parse files_ new_files w = (Ok d, w') ->
  (forall k s, (k, s) ∈ d ->
     (k, s) ∈ new_files
     ∨ exists file, file ∈ files_ ∧ output_path file = k
         ∧ gen_public_wrappers_source to_source parse file (disk w) = Ok s)
  ∧ (forall k, k ∈ new_files.*1 -> k ∈ d.*1)
  ∧ (forall file, file ∈ files_ -> output_path file ∈ d.*1).
Proof.
  induction files_ as [|file files_ IH]; intros new_files w d w' Hscan;
    cbn [scan] in Hscan.
  - injection Hscan as <- <-. split; [auto|]. split; [auto|].
    intros file H. by apply elem_of_nil in H.
  - change (disk (print ("Scanning: " +:+ path file) w)) with (disk w) in Hscan.
    destruct (gen_public_wrappers_source to_source parse file (disk w))
      as [new_source| |] eqn:Hgen; [|done..].
    assert (Hout : output_path file
                   = Path.join (Path.split (path file)).1
                       (PREFIX +:+ (Path.split (path file)).2)).
    { unfold output_path. by destruct (Path.split (path file)). }
    destruct (Path.split (path file)) as [dirname basename]. cbn [fst snd] in Hout.
    apply IH in Hscan as (H1 & H2 & H3).
    change (disk (print ("Scanning: " +:+ path file) w)) with (disk w) in H1.
    split; [|split].
    + intros k s Hks. destruct (H1 k s Hks) as [Hin|(file' & Hf & Hp & Hg)].
      * apply elem_of_dict_set in Hin as [Hin|[-> ->]]; [by left|].
        right. exists file. split; [by left|]. done.
      * right. exists file'. split; [by right|]. done.
    + intros k Hk. apply H2. apply dict_set_keys. by left.
    + intros file' [->|Hf]%elem_of_cons; [|by apply H3].
      apply H2. apply dict_set_keys. right. done.
Qed.


End Driver.

(** ** The marker *)

Lemma existsb_is_name id decs :
  existsb (is_name id) decs = true <-> exists ctx, Name id ctx ∈ decs.
Proof.
  rewrite existsb_exists. split.
  - intros (d & Hd & Hn). destruct d as [id' ctx| |]; [|done..].
    apply String.eqb_eq in Hn as ->. exists ctx. by apply list_elem_of_In.
  - intros (ctx & Hd). exists (Name id ctx). split; [by apply list_elem_of_In|].
    cbn. apply String.eqb_refl.
Qed.

Lemma is_public_iff σ node :
  is_public σ node = true
  <-> exists l f ctx, node = Ref l ∧ σ l = Some (OFunctionDef f)
        ∧ Name "_public" ctx ∈ f_decorator_list f.
Proof.
  unfold is_public, is_function, isinstance_FunctionDef,
    isinstance_AsyncFunctionDef. split.
  - destruct node as [l|v]; [|done].
    destruct (σ l) as [[f| | |]|] eqn:Hl; try done.
    destruct (f_async f); cbn; intros [ctx Hctx]%existsb_is_name; eauto 6.
  - intros (l & f & ctx & -> & Hl & Hctx). rewrite Hl.
    assert (H : existsb (is_name "_public") (f_decorator_list f) = true)
      by (apply existsb_is_name; eauto).
    by destruct (f_async f).
Qed.

(** ** A failed check ends the run *)

Section Abort.

Variable to_source : node -> string.
Variable parse : string -> option node.

Lemma wrapper_not_stuck file n : wrapper to_source file n ≠ Stuck.
Proof.
  unfold wrapper. destruct n as [? ? a ? ? ?| | |]; [|done..].
  cbn [check_receiver]. destruct (args a) as [|first ?]; [done|].
  by destruct (String.eqb (arg first) "self").
Qed.

Lemma wrappers_not_stuck file l : wrappers to_source file l ≠ Stuck.
Proof.
  induction l as [|x l IH]; [done|]. cbn [wrappers].
  pose proof (wrapper_not_stuck file x.2).
  destruct (wrapper to_source file x.2); cbn [mbind res_bind]; [|done..].
  by destruct (wrappers to_source file l).
Qed.

Lemma gen_public_wrappers_source_not_stuck file fs :
  gen_public_wrappers_source to_source parse file fs ≠ Stuck.
Proof.
  unfold gen_public_wrappers_source, parse_file.
  destruct (fs !! path file) as [text|]; [|done].
  destruct (parse text) as [t|]; [|done]. cbn [mbind res_bind].
  rewrite wrap_methods_load.
  pose proof (wrappers_not_stuck file (public_methods t)).
  by destruct (wrappers to_source file (public_methods t)).
Qed.

Lemma wrappers_raise file l x e :
  x ∈ l -> wrapper to_source file x.2 = Raise e ->
  exists e', wrappers to_source file l = Raise e'.
Proof.
  intros Hin Hx. induction l as [|y l IH]; [by apply elem_of_nil in Hin|].
  cbn [wrappers]. pose proof (wrapper_not_stuck file y.2).
  destruct (wrapper to_source file y.2) as [s|e0|] eqn:Hy; cbn [mbind res_bind];
    [|by eauto|done].
  apply elem_of_cons in Hin as [->|Hin]; [congruence|].
  destruct (IH Hin) as [e' ->]. eauto.
Qed.

Lemma gen_public_wrappers_source_raise file fs text t l n e :
  fs !! path file = Some text -> parse text = Some t ->
  node_at t l = Some n -> marked n = true ->
  wrapper to_source file n = Raise e ->
  exists e', gen_public_wrappers_source to_source parse file fs = Raise e'.
Proof.
  intros Hfs Hparse Hn Hmk Hw.
  unfold gen_public_wrappers_source, parse_file. rewrite Hfs, Hparse.
  cbn [mbind res_bind]. rewrite wrap_methods_load.
  destruct (wrappers_raise file (public_methods t) (l, n) e) as [e' ->];
    [by apply elem_of_public_methods|done|].
  eauto.
Qed.

Lemma scan_raise file e files_ : forall new_files w,
  file ∈ files_ ->
  gen_public_wrappers_source to_source parse file (disk w) = Raise e ->
  exists e' w', scan to_source parse files_ new_files w = (Raise e', w')
                ∧ disk w' = disk w.
Proof.
  induction files_ as [|file0 files_ IH]; intros new_files w Hin Hgen;
    [by apply elem_of_nil in Hin|].
  cbn [scan].
  change (disk (print ("Scanning: " +:+ path file0) w)) with (disk w).
  pose proof (gen_public_wrappers_source_not_stuck file0 (disk w)).
  destruct (gen_public_wrappers_source to_source parse file0 (disk w))
    as [s|e0|] eqn:Hgen0; [|by eauto|done].
  apply elem_of_cons in Hin as [->|Hin]; [congruence|].
  destruct (Path.split (path file0)) as [dirname basename].
  destruct (IH (dict_set new_files (Path.join dirname (PREFIX +:+ basename)) s)
              (print ("Scanning: " +:+ path file0) w) Hin Hgen)
    as (e' & w' & Hscan & Hd).
  eauto.
Qed.

(** In either mode an exception of the generator ends [process] before
    anything is written. *)
Lemma process_raise file e files_ do_test w :
  file ∈ files_ ->
  gen_public_wrappers_source to_source parse file (disk w) = Raise e ->
  exists e' w', process to_source parse files_ do_test w = (Raised e', w')
                ∧ disk w' = disk w.
Proof.
  intros Hin Hgen.
  destruct (scan_raise file e files_ [] w Hin Hgen) as (e' & w' & Hscan & Hd).
  unfold process. rewrite Hscan. eauto.
Qed.

Lemma marked_check_aborts file files_ do_test w text t l n e :
  file ∈ files_ -> disk w !! path file = Some text -> parse text = Some t ->
  node_at t l = Some n -> marked n = true ->
  wrapper to_source file n = Raise e ->
  exists e' w', process to_source parse files_ do_test w = (Raised e', w')
                ∧ disk w' = disk w.
Proof.
  intros Hin Hfs Hparse Hn Hmk Hw.
  destruct (gen_public_wrappers_source_raise file _ _ _ _ _ _ Hfs Hparse Hn Hmk Hw)
    as [e' He'].
  by eapply process_raise.
Qed.

End Abort.

(** ** The function after the loop is through with it *)

Lemma strip_function σ m b nm a body decs r :
  strip m (FunctionDef b nm a body decs r) σ m
  = Some (OFunctionDef
            (Function b nm (m ++ [0]) (items_at m 1 (docstring_only body)) [] r)).
Proof. cbn [strip]. apply upd_eq. Qed.

Lemma strip_arguments σ m b nm a body decs r :
  strip m (FunctionDef b nm a body decs r) σ (m ++ [0])
  = Some (OArguments (without_receiver a)).
Proof.
  cbn [strip]. rewrite !(upd_ne _ m) by (by apply app_ne_self). apply upd_eq.
Qed.

Lemma reify_strip σ m b nm a body decs r :
  agree σ m (TNode (FunctionDef b nm a body decs r)) ->
  reify 2 (strip m (FunctionDef b nm a body decs r) σ) (Ref m)
  = Some (FunctionDef b nm (without_receiver a) (docstring_only body) [] r).
Proof.
  intros Hag.
  rewrite (reify_function 1 _ m _ _ (strip_function σ m b nm a body decs r)
             (strip_arguments σ m b nm a body decs r)).
  cbn [f_async f_name f_args f_body f_decorator_list f_returns].
  rewrite reify_docstring; [done|].
  destruct body as [|c body]; [done|].
  rewrite strip_frame.
  - apply (agree_here σ (m ++ [1]) (TNode c)). by eapply agree_child.
  - by apply app_ne_self.
  - intros H. by apply app_inv_head in H.
Qed.

Lemma check_receiver_ok n :
  check_receiver n = Ok tt
  <-> exists b nm a body decs r first rest,
        n = FunctionDef b nm a body decs r ∧ args a = first :: rest
        ∧ arg first = "self".
Proof.
  split.
  - destruct n as [b nm a body decs r| | |]; [|done..]. cbn [check_receiver].
    destruct (args a) as [|first rest] eqn:Ha; [done|].
    destruct (String.eqb (arg first) "self") eqn:Hs; [|done].
    apply String.eqb_eq in Hs. intros _.
    by exists b, nm, a, body, decs, r, first, rest.
  - intros (b & nm & a & body & decs & r & first & rest & -> & Ha & Hs).
    cbn [check_receiver]. rewrite Ha, Hs. done.
Qed.

Section Outcome.

Variable to_source : node -> string.

Lemma wrap_method_ok file σ m n s σ' :
  marked n = true -> agree σ m (TNode n) ->
  wrap_method to_source file (Ref m) σ = Ok (s, σ') ->
  check_receiver n = Ok tt ∧ s = snippet to_source file n ∧ σ' = strip m n σ.
Proof.
  intros Hmk Hag. rewrite (wrap_method_agree _ _ _ _ _ Hmk Hag). unfold wrapper.
  destruct (check_receiver n) as [[]| |]; cbn [mbind res_bind]; [|done..].
  by intros [= <- <-].
Qed.

Lemma wrap_method_raise file σ m n e :
  marked n = true -> agree σ m (TNode n) ->
  check_receiver n = Raise e ->
  wrap_method to_source file (Ref m) σ = Raise e
  ∧ wrapper to_source file n = Raise e.
Proof.
  intros Hmk Hag Hc. rewrite (wrap_method_agree _ _ _ _ _ Hmk Hag).
  unfold wrapper. by rewrite Hc.
Qed.

End Outcome.

(** ** Paths and text on samples *)

Example split_run : Path.split "trio/_core/_run.py" = ("trio/_core", "_run.py").
Proof. reflexivity. Qed.

Example join_generated :
  Path.join "trio/_core" "_generated_run.py" = "trio/_core/_generated_run.py".
Proof. reflexivity. Qed.

Example stem_run : Path.stem "trio/_core/_run.py" = "_run".
Proof. reflexivity. Qed.

Example replace_iterator :
  Str.replace "->Iterator" "->ContextManager" "def f()->Iterator[None]:"
  = "def f()->ContextManager[None]:".
Proof. reflexivity. Qed.

Example indent_blank_line :
  Str.indent ("try:" +:+ Str.nl +:+ Str.nl +:+ "    pass" +:+ Str.nl) "    "
  = "    try:" +:+ Str.nl +:+ Str.nl +:+ "        pass" +:+ Str.nl.
Proof. reflexivity. Qed.

(** * The specification *)

Section Specification.

Variable to_source : node -> string.
Variable parse : string -> option node.

(** C1: the arguments of the forwarding call.  For a function object
    whose [arguments] object is [a], [create_passthrough_args] returns, in
    parentheses and separated by a comma and a space: the name of every
    parameter of [a.args] in order, then the [*] parameter when there is
    one, then every keyword-only parameter as [name=name], then the [**]
    parameter when there is one.  In the loop the receiver has been deleted
    from [a.args] when the function is called, so these are the remaining
    positional parameters. *)
Theorem create_passthrough_args_lists σ funcdef f a :
  σ funcdef = Some (OFunctionDef f) ->
  σ (f_args f) = Some (OArguments a) ->
  create_passthrough_args σ (Ref funcdef)
  = Ok ("(" +:+ Str.join ", "
                  (map arg (args a)
                   ++ match vararg a with Some v => ["*" +:+ arg v] | None => [] end
                   ++ map (fun x => arg x +:+ "=" +:+ arg x) (kwonlyargs a)
                   ++ match kwarg a with Some k => ["**" +:+ arg k] | None => [] end)
          +:+ ")").
Proof.
  intros Hfun Hargs.
  unfold create_passthrough_args, read_function, read_arguments.
  rewrite Hfun. cbn [mbind res_bind snd]. rewrite Hargs. cbn [mbind res_bind].
  do 3 f_equal.
  destruct (vararg a) as [v|], (kwarg a) as [k|];
    rewrite !fold_left_snoc; cbn [app]; rewrite <- ?app_assoc, ?app_nil_r;
    reflexivity.
Qed.

(** C2: the delegation pattern.  For a marked function that passes the
    check on its receiver, the snippet is the text of the function from
    [astor] followed by exactly the delegation lines: the protection flag
    is set, the call on [GLOBAL_RUN_CONTEXT.<modname>] is returned, with
    [await] before it if and only if the function is asynchronous, and an
    [AttributeError] becomes the [RuntimeError] that asks for an async
    context.  The names that go into the call hold no line break. *)
Theorem wrap_method_delegation file σ m n :
  marked n = true ->
  agree σ m (TNode n) ->
  check_receiver n = Ok tt ->
  no_linebreak (modname file +:+ "." +:+ forwarding_call n) = true ->
  wrap_method to_source file (Ref m) σ
  = Ok (rendered to_source file n
        +:+ "    locals()[LOCALS_KEY_KI_PROTECTION_ENABLED] = True
    try:
        return" +:+ (if asynchronous n then " await " else " ")
        +:+ "GLOBAL_RUN_CONTEXT." +:+ modname file +:+ "."
        +:+ forwarding_call n +:+ "
    except AttributeError:
        raise RuntimeError(" +:+ Str.dq +:+ "must be called from async context"
        +:+ Str.dq +:+ ")
", strip m n σ).
Proof.
  intros Hmk Hag Hcheck Hs.
  rewrite (wrap_method_agree _ _ _ _ _ Hmk Hag). unfold wrapper.
  rewrite Hcheck. cbn [mbind res_bind]. unfold snippet.
  rewrite (indent_template _ _ _ Hs). reflexivity.
Qed.



(** C4: determinism.  The generated text is a function of the descriptor
    of the file and of the text at its path: two runs that find the same
    text there return the same result, whatever else is on disk; and the
    run always ends, with a text or with an exception. *)
Theorem gen_public_wrappers_source_deterministic file fs1 fs2 :
  fs1 !! path file = fs2 !! path file ->
  gen_public_wrappers_source to_source parse file fs1
  = gen_public_wrappers_source to_source parse file fs2
  ∧ gen_public_wrappers_source to_source parse file fs1 ≠ Stuck.
Proof.
  intros Hfs. split; [|apply gen_public_wrappers_source_not_stuck].
  unfold gen_public_wrappers_source, parse_file. by rewrite Hfs.
Qed.

(** C5, as amended: the order of the scanner.  [get_public_methods]
    yields the marked functions in the order of [ast.walk], which is
    breadth first: a function comes before every function that lies deeper
    in the tree, and functions of the same depth come in the order of the
    source text.  The functions yielded are those of the depth-first
    listing, rearranged.  The walk ends within as many steps as the tree
    has nodes. *)
Theorem get_public_methods_breadth_first t extra :
  get_public_methods (size t + extra) (load t) (root t)
  = Ok (map (fun x => Ref x.1) (filter marked_at (breadth_first t)))
  ∧ filter marked_at (breadth_first t) ≡ₚ filter marked_at (preorder [] t).
Proof.
  split; [apply get_public_methods_load|].
  by rewrite breadth_first_preorder.
Qed.

(** C8: what the scanner selects.  [is_public] holds of a node exactly
    when it is a function definition, ordinary or asynchronous, with the
    bare name [_public] among its decorators; and the scanner yields a
    node exactly when it is a node of the tree, at whatever depth, that is
    such a function. *)
Theorem get_public_methods_selects t extra :
  (forall σ node,
     is_public σ node = true
     <-> exists l f ctx, node = Ref l ∧ σ l = Some (OFunctionDef f)
           ∧ Name "_public" ctx ∈ f_decorator_list f)
  ∧ exists methods,
      get_public_methods (size t + extra) (load t) (root t) = Ok methods
      ∧ forall node,
          node ∈ methods
          <-> exists l is_async name a body decs returns ctx,
                node = Ref l
                ∧ node_at t l = Some (FunctionDef is_async name a body decs returns)
                ∧ Name "_public" ctx ∈ decs.
Proof.
  split.
  - intros σ node. rewrite is_public_iff. done.
  - eexists. split; [apply get_public_methods_load|].
    intros node. rewrite list_elem_of_fmap. split.
    + intros ([l n] & -> & Hn). apply elem_of_public_methods in Hn as [Hn Hmk].
      destruct n as [b nm a body decs r| | |]; [|done..].
      apply existsb_is_name in Hmk as [ctx Hctx].
      exists l, b, nm, a, body, decs, r, ctx. done.
    + intros (l & b & nm & a & body & decs & r & ctx & -> & Hn & Hctx).
      exists (l, FunctionDef b nm a body decs r). split; [done|].
      apply elem_of_public_methods. split; [done|].
      apply existsb_is_name. eauto.
Qed.

(** C6: the receiver is removed.  When the loop gets through a marked
    function, the first element of [args.args] is gone from its
    [arguments] object, whatever else the function declares: the function
    that [astor] renders and the arguments of the forwarding call are
    built from the parameters that remain.  A marked function with no
    positional parameter, so in particular one with no parameter at all,
    raises [IndexError], and that ends the whole run with nothing
    written. *)
Theorem receiver_removed file σ m is_async name a body decs returns :
  marked (FunctionDef is_async name a body decs returns) = true ->
  agree σ m (TNode (FunctionDef is_async name a body decs returns)) ->
  (forall s σ',
     wrap_method to_source file (Ref m) σ = Ok (s, σ') ->
     exists first rest body',
       args a = first :: rest
       ∧ σ' (m ++ [0])
         = Some (OArguments
                   (Arguments (posonlyargs a) rest (vararg a) (kwonlyargs a)
                      (kw_defaults a) (kwarg a) (defaults a)))
       ∧ reify 2 σ' (Ref m)
         = Some (FunctionDef is_async name
                   (Arguments (posonlyargs a) rest (vararg a) (kwonlyargs a)
                      (kw_defaults a) (kwarg a) (defaults a))
                   body' [] returns)
       ∧ create_passthrough_args σ' (Ref m)
         = Ok (passthrough
                 (Arguments (posonlyargs a) rest (vararg a) (kwonlyargs a)
                    (kw_defaults a) (kwarg a) (defaults a))))
  ∧ (args a = [] ->
     wrap_method to_source file (Ref m) σ = Raise IndexError
     ∧ forall files_ do_test w text t l,
         file ∈ files_ -> disk w !! path file = Some text ->
         parse text = Some t ->
         node_at t l = Some (FunctionDef is_async name a body decs returns) ->
         exists e w', process to_source parse files_ do_test w = (Raised e, w')
                      ∧ disk w' = disk w).
Proof.
  intros Hmk Hag. split.
  - intros s σ' Hw.
    apply (wrap_method_ok _ _ _ _ _ _ _ Hmk Hag) in Hw as (Hc & -> & ->).
    apply check_receiver_ok in Hc
      as (b & nm & a0 & body0 & decs0 & r & first & rest & [= <- <- <- <- <- <-] & Ha & _).
    assert (Hwr : without_receiver a
                  = Arguments (posonlyargs a) rest (vararg a) (kwonlyargs a)
                      (kw_defaults a) (kwarg a) (defaults a)).
    { unfold without_receiver. by rewrite Ha. }
    exists first, rest, (docstring_only body). rewrite <- Hwr.
    split; [done|]. split; [apply strip_arguments|].
    split; [by apply reify_strip|].
    eapply create_passthrough_args_eq; [apply strip_function|].
    apply strip_arguments.
  - intros Ha.
    assert (Hc : check_receiver (FunctionDef is_async name a body decs returns)
                 = Raise IndexError) by (cbn; by rewrite Ha).
    destruct (wrap_method_raise to_source file _ _ _ _ Hmk Hag Hc) as [Hw Hw'].
    split; [done|].
    intros files_ do_test w text t l Hin Hfs Hparse Hn.
    by eapply marked_check_aborts.
Qed.

(** C7: the body.  When the loop gets through a marked function, the
    function that [astor] renders has no decorator and its body is the
    docstring statement alone when the body as parsed starts with one, and
    is empty otherwise; the snippet is the text of that function, as
    corrected, followed by the delegation lines.  No other statement of
    the function goes into the generated text. *)
Theorem docstring_kept file σ m is_async name a body decs returns s σ' :
  marked (FunctionDef is_async name a body decs returns) = true ->
  agree σ m (TNode (FunctionDef is_async name a body decs returns)) ->
  wrap_method to_source file (Ref m) σ = Ok (s, σ') ->
  let kept :=
    match body with
    | Expr (Constant (CStr doc)) :: _ => [Expr (Constant (CStr doc))]
    | _ => []
    end in
  reify 2 σ' (Ref m)
  = Some (FunctionDef is_async name (without_receiver a) kept [] returns)
  ∧ s = corrections file decs
          (to_source
             (FunctionDef is_async name (without_receiver a) kept [] returns))
        +:+ Str.indent
              (TEMPLATE (if is_async then " await " else " ") (modname file)
                 (name +:+ passthrough (without_receiver a)))
              "    ".
Proof.
  intros Hmk Hag Hw kept.
  apply (wrap_method_ok _ _ _ _ _ _ _ Hmk Hag) in Hw as (_ & -> & ->).
  split; [by apply reify_strip|done].
Qed.

(** C10: the receiver is called [self].  The loop gets through a marked
    function exactly when its first positional parameter is named [self].
    A marked function that has positional parameters, the first of them
    under another name, fails the assertion, and that ends the whole run
    with nothing written. *)
Theorem receiver_named_self file σ m is_async name a body decs returns :
  marked (FunctionDef is_async name a body decs returns) = true ->
  agree σ m (TNode (FunctionDef is_async name a body decs returns)) ->
  ((exists s σ', wrap_method to_source file (Ref m) σ = Ok (s, σ'))
   <-> exists first rest, args a = first :: rest ∧ arg first = "self")
  ∧ (forall first rest,
       args a = first :: rest -> arg first ≠ "self" ->
       wrap_method to_source file (Ref m) σ = Raise AssertionError
       ∧ forall files_ do_test w text t l,
           file ∈ files_ -> disk w !! path file = Some text ->
           parse text = Some t ->
           node_at t l = Some (FunctionDef is_async name a body decs returns) ->
           exists e w', process to_source parse files_ do_test w = (Raised e, w')
                        ∧ disk w' = disk w).
Proof.
  intros Hmk Hag. split.
  - split.
    + intros (s & σ' & Hw).
      apply (wrap_method_ok _ _ _ _ _ _ _ Hmk Hag) in Hw as (Hc & _).
      apply check_receiver_ok in Hc
        as (b & nm & a0 & body0 & decs0 & r & first & rest & [= <- <- <- <- <- <-] & Ha & Hs).
      eauto.
    + intros (first & rest & Ha & Hs).
      rewrite (wrap_method_agree _ _ _ _ _ Hmk Hag). unfold wrapper.
      cbn [check_receiver]. rewrite Ha, Hs. cbn. eauto.
  - intros first rest Ha Hs.
    assert (Hc : check_receiver (FunctionDef is_async name a body decs returns)
                 = Raise AssertionError).
    { cbn. rewrite Ha. destruct (String.eqb (arg first) "self") eqn:He; [|done].
      by apply String.eqb_eq in He. }
    destruct (wrap_method_raise to_source file _ _ _ _ Hmk Hag Hc) as [Hw Hw'].
    split; [done|].
    intros files_ do_test w text t l Hin Hfs Hparse Hn.
    by eapply marked_check_aborts.
Qed.

(** C9, as amended: the tree is edited in place.  When the loop ends,
    every marked function of the tree has lost its decorators, its body
    is cut down to the docstring statement, and its [arguments] object
    has lost the receiver; every other object of the tree is as the
    parser left it. *)
Theorem wrap_methods_edits file t generated σ' :
  wrap_methods to_source file t = Ok (generated, σ') ->
  (forall l is_async name a body decs returns,
     node_at t l = Some (FunctionDef is_async name a body decs returns) ->
     marked (FunctionDef is_async name a body decs returns) = true ->
     σ' l = Some (OFunctionDef
                    (Function is_async name (l ++ [0])
                       (items_at l 1 (docstring_only body)) [] returns))
     ∧ σ' (l ++ [0]) = Some (OArguments (without_receiver a)))
  ∧ (forall l,
       (forall m n, node_at t m = Some n -> marked n = true ->
                    l ≠ m ∧ l ≠ m ++ [0]) ->
       σ' l = load t l).
Proof.
  rewrite wrap_methods_load.
  destruct (wrappers to_source file (public_methods t)) as [ss| |];
    cbn [mbind res_bind]; [|done..].
  intros [= _ <-]. split.
  - intros l b nm a body decs r Hn Hmk. split.
    + eapply strips_function; [apply NoDup_public_methods| |].
      * apply elem_of_public_methods. by split.
      * intros [m' n'] [Hn' Hmk']%elem_of_public_methods ->. cbn [fst] in Hn.
        rewrite (node_at_arguments _ _ _ Hn' Hmk') in Hn. done.
    + eapply strips_arguments; [apply NoDup_public_methods| |].
      * apply elem_of_public_methods. by split.
      * intros [m' n'] [Hn' Hmk']%elem_of_public_methods Heq. cbn [fst] in Heq.
        rewrite <- Heq in Hn'.
        rewrite (node_at_arguments _ _ _ Hn Hmk) in Hn'. done.
  - intros l Hl. apply strips_frame.
    intros [m n] [Hn Hmk]%elem_of_public_methods. cbn [fst].
    by apply (Hl m n).
Qed.
End Specification.

Lemma create_passthrough_args_lists_witness :
  create_passthrough_args (strip [] Sample.m (load Sample.m)) (Ref [])
  = Ok "(a, b, *rest, c=c, **kw)".
Proof.
  exact (create_passthrough_args_lists (strip [] Sample.m (load Sample.m)) []
           _ _ eq_refl eq_refl).
Defined.

Lemma wrap_method_delegation_witness :
  wrap_method Sample.to_source Sample.file (Ref [0; 1]) (load Sample.module)
  = Ok ("async def f(...):
    " +:+ Str.dq +:+ "doc" +:+ Str.dq +:+ "
    locals()[LOCALS_KEY_KI_PROTECTION_ENABLED] = True
    try:
        return await GLOBAL_RUN_CONTEXT.runner.f(x, y=y)
    except AttributeError:
        raise RuntimeError(" +:+ Str.dq +:+ "must be called from async context"
        +:+ Str.dq +:+ ")
", strip [0; 1] Sample.f (load Sample.module)).
Proof.
  exact (wrap_method_delegation Sample.to_source Sample.file (load Sample.module)
           [0; 1] Sample.f eq_refl (fun q => eq_refl) eq_refl eq_refl).
Defined.


Lemma gen_public_wrappers_source_deterministic_witness :
  gen_public_wrappers_source Sample.to_source Sample.parse Sample.file Sample.disk
  = gen_public_wrappers_source Sample.to_source Sample.parse Sample.file
      (<["setup.py" := "import setuptools"]> Sample.disk)
  ∧ gen_public_wrappers_source Sample.to_source Sample.parse Sample.file Sample.disk
    ≠ Stuck.
Proof.
  apply (gen_public_wrappers_source_deterministic Sample.to_source Sample.parse
           Sample.file Sample.disk
           (<["setup.py" := "import setuptools"]> Sample.disk)).
  reflexivity.
Defined.

(** C5: the scanner does not follow the source text.  In
    [Sample.nested] the method [f] comes first in the text, below an [if];
    the scanner yields [m], which lies less deep, before it. *)
Lemma get_public_methods_not_in_source_order :
  map (fun x => Ref x.1) (filter marked_at (preorder [] Sample.nested))
  = [Ref [0; 0; 1]; Ref [0; 1]]
  ∧ get_public_methods (size Sample.nested) (load Sample.nested)
      (root Sample.nested)
    = Ok [Ref [0; 1]; Ref [0; 0; 1]]
  ∧ get_public_methods (size Sample.nested) (load Sample.nested)
      (root Sample.nested)
    ≠ Ok (map (fun x => Ref x.1) (filter marked_at (preorder [] Sample.nested))).
Proof. split; [reflexivity|]. split; [reflexivity|]. discriminate. Defined.

Lemma receiver_removed_witness :
  create_passthrough_args (strip [0; 1] Sample.f (load Sample.module)) (Ref [0; 1])
  = Ok "(x, y=y)"
  ∧ wrap_method Sample.to_source Sample.file (Ref [0])
      (load (Node "Module" [Sample.no_parameters]))
    = Raise IndexError.
Proof.
  split.
  - destruct (receiver_removed Sample.to_source Sample.parse Sample.file
                (load Sample.module) [0; 1] true "f"
                (Arguments [] [Sample.param "self"; Sample.param "x"] None
                   [Sample.param "y"] [Some (Constant (CInt 2))] None [])
                [Expr (Constant (CStr "doc")); Node "Pass" []]
                [Sample.public] None eq_refl (fun q => eq_refl)) as [Hok _].
    destruct (Hok _ _ eq_refl) as (first & rest & body' & Ha & _ & _ & Hcall).
    injection Ha as _ <-. exact Hcall.
  - destruct (receiver_removed Sample.to_source Sample.parse Sample.file
                (load (Node "Module" [Sample.no_parameters])) [0] false "g"
                (Arguments [] [] None [] [] None []) [Node "Pass" []]
                [Sample.public] None eq_refl (fun q => eq_refl)) as [_ Hraise].
    exact (proj1 (Hraise eq_refl)).
Defined.

Lemma docstring_kept_witness :
  reify 2 (strip [0; 1] Sample.f (load Sample.module)) (Ref [0; 1])
  = Some (FunctionDef true "f"
            (Arguments [] [Sample.param "x"] None [Sample.param "y"]
               [Some (Constant (CInt 2))] None [])
            [Expr (Constant (CStr "doc"))] [] None)
  ∧ snippet Sample.to_source Sample.file Sample.f
    = "async def f(...):
    " +:+ Str.dq +:+ "doc" +:+ Str.dq +:+ "
    locals()[LOCALS_KEY_KI_PROTECTION_ENABLED] = True
    try:
        return await GLOBAL_RUN_CONTEXT.runner.f(x, y=y)
    except AttributeError:
        raise RuntimeError(" +:+ Str.dq +:+ "must be called from async context"
        +:+ Str.dq +:+ ")
".
Proof.
  exact (docstring_kept Sample.to_source Sample.file (load Sample.module) [0; 1]
           true "f"
           (Arguments [] [Sample.param "self"; Sample.param "x"] None
              [Sample.param "y"] [Some (Constant (CInt 2))] None [])
           [Expr (Constant (CStr "doc")); Node "Pass" []]
           [Sample.public] None
           (snippet Sample.to_source Sample.file Sample.f)
           (strip [0; 1] Sample.f (load Sample.module))
           eq_refl (fun q => eq_refl) eq_refl).
Defined.

Lemma receiver_named_self_witness :
  wrap_method Sample.to_source Sample.file (Ref [0])
    (load (Node "Module" [Sample.other_receiver]))
  = Raise AssertionError
  ∧ exists e w',
      process Sample.to_source Sample.parse_other_receiver [Sample.file] false
        (World Sample.disk [])
      = (Raised e, w')
      ∧ disk w' = Sample.disk.
Proof.
  destruct (receiver_named_self Sample.to_source Sample.parse_other_receiver
              Sample.file (load (Node "Module" [Sample.other_receiver])) [0]
              false "h" (Arguments [] [Sample.param "this"] None [] [] None [])
              [Node "Pass" []] [Sample.public] None eq_refl (fun q => eq_refl))
    as [_ Hraise].
  destruct (Hraise (Sample.param "this") [] eq_refl) as [Hw Hrun];
    [discriminate|].
  split; [exact Hw|].
  apply (Hrun [Sample.file] false (World Sample.disk []) Sample.text
           (Node "Module" [Sample.other_receiver]) [0]);
    [apply list_elem_of_here|reflexivity|reflexivity|reflexivity].
Defined.

Lemma wrap_methods_edits_witness :
  strips (public_methods Sample.module) (load Sample.module) [0; 1]
  = Some (OFunctionDef (Function true "f" [0; 1; 0] [Ref [0; 1; 1]] [] None))
  ∧ strips (public_methods Sample.module) (load Sample.module) [0; 1; 0]
    = Some (OArguments
              (Arguments [] [Sample.param "x"] None [Sample.param "y"]
                 [Some (Constant (CInt 2))] None []))
  ∧ strips (public_methods Sample.module) (load Sample.module) [0]
    = load Sample.module [0].
Proof.
  destruct (wrap_methods_edits Sample.to_source Sample.file Sample.module
              [header Sample.file; snippet Sample.to_source Sample.file Sample.f]
              (strips (public_methods Sample.module) (load Sample.module))
              eq_refl) as [Hedit Hframe].
  destruct (Hedit [0; 1] true "f"
              (Arguments [] [Sample.param "self"; Sample.param "x"] None
                 [Sample.param "y"] [Some (Constant (CInt 2))] None [])
              [Expr (Constant (CStr "doc")); Node "Pass" []]
              [Sample.public] None eq_refl eq_refl) as [Hf Ha].
  split; [exact Hf|]. split; [exact Ha|]. reflexivity.
Defined.

(** C9: the loop edits the tree.  After the loop over [Sample.module] the
    function [f] has no decorator, one statement and one positional
    parameter, where the parser left it with a decorator, two statements
    and two positional parameters. *)
Lemma wrap_methods_edits_the_tree :
  exists generated σ',
    wrap_methods Sample.to_source Sample.file Sample.module = Ok (generated, σ')
    ∧ load Sample.module [0; 1]
      = Some (OFunctionDef
                (Function true "f" [0; 1; 0] [Ref [0; 1; 1]; Ref [0; 1; 2]]
                   [Sample.public] None))
    ∧ σ' [0; 1]
      = Some (OFunctionDef (Function true "f" [0; 1; 0] [Ref [0; 1; 1]] [] None))
    ∧ load Sample.module [0; 1; 0]
      = Some (OArguments
                (Arguments [] [Sample.param "self"; Sample.param "x"] None
                   [Sample.param "y"] [Some (Constant (CInt 2))] None []))
    ∧ σ' [0; 1; 0]
      = Some (OArguments
                (Arguments [] [Sample.param "x"] None [Sample.param "y"]
                   [Some (Constant (CInt 2))] None []))
    ∧ σ' [0; 1] ≠ load Sample.module [0; 1].
Proof.
  exists [header Sample.file; snippet Sample.to_source Sample.file Sample.f],
    (strips (public_methods Sample.module) (load Sample.module)).
  repeat split; try reflexivity. discriminate.
Defined.

(** * Further properties *)

(** ** Writing the generated files *)

Lemma elem_of_dict_set_keys d k v k' :
  k' ∈ (dict_set d k v).*1 <-> k' ∈ d.*1 ∨ k' = k.
Proof.
  split; [|apply dict_set_keys].
  intros [[k0 v0] [-> H]]%list_elem_of_fmap.
  apply elem_of_dict_set in H as [H|[-> ->]]; [|by right].
  left. apply list_elem_of_fmap. by exists (k0, v0).
Qed.

Lemma dict_set_NoDup d k v : NoDup d.*1 -> NoDup (dict_set d k v).*1.
Proof.
  induction d as [|[k0 v0] d IH]; cbn [dict_set fmap list_fmap fst].
  - intros _. apply NoDup_singleton.
  - intros [Hk0 Hd]%NoDup_cons.
    destruct (String.eqb k0 k) eqn:Heq; cbn [fmap list_fmap fst].
    + by constructor.
    + constructor; [|by apply IH].
      rewrite elem_of_dict_set_keys. intros [H| ->]; [done|].
      by rewrite String.eqb_refl in Heq.
Qed.

Lemma write_all_disk new_files : forall w,
  disk (write_all new_files w)
  = fold_left (fun fs kv => <[kv.1 := kv.2]> fs) new_files (disk w).
Proof.
  induction new_files as [|kv l IH]; intros w; [done|].
  cbn [write_all fold_left]. fold (write_all l (write_file kv.1 kv.2 w)).
  by rewrite IH.
Qed.

Lemma write_all_frame new_files : forall w p,
  p ∉ new_files.*1 -> disk (write_all new_files w) !! p = disk w !! p.
Proof.
  induction new_files as [|[k v] l IH]; intros w p Hp; [done|].
  cbn [fmap list_fmap fst] in Hp. apply not_elem_of_cons in Hp as [Hne Hp].
  change (write_all ((k, v) :: l) w) with (write_all l (write_file k v w)).
  rewrite IH by done. cbn. by rewrite lookup_insert_ne.
Qed.

Lemma write_all_lookup new_files : forall w p s,
  NoDup new_files.*1 -> (p, s) ∈ new_files ->
  disk (write_all new_files w) !! p = Some s.
Proof.
  induction new_files as [|[k v] l IH]; intros w p s Hnd Hin.
  - by apply elem_of_nil in Hin.
  - cbn [fmap list_fmap fst] in Hnd. apply NoDup_cons in Hnd as [Hk Hnd].
    change (write_all ((k, v) :: l) w) with (write_all l (write_file k v w)).
    apply elem_of_cons in Hin as [[= -> ->]|Hin].
    + rewrite write_all_frame by done. cbn. apply lookup_insert_eq.
    + by apply IH.
Qed.

Section Regenerate.

Variable to_source : node -> string.
Variable parse : string -> option node.


Lemma scan_NoDup files_ : forall new_files w d w',
  scan to_source parse files_ new_files w = (Ok d, w') ->
  NoDup new_files.*1 -> NoDup d.*1.
Proof.
  induction files_ as [|file files_ IH]; intros new_files w d w' Hscan Hnd;
    cbn [scan] in Hscan.
  - by injection Hscan as <- <-.
  - destruct (gen_public_wrappers_source _ _ _ _); [|done..].
    destruct (Path.split (path file)).
    eapply IH; [exact Hscan|]. by apply dict_set_NoDup.
Qed.

Lemma scan_stdout files_ : forall new_files w d w',
  scan to_source parse files_ new_files w = (Ok d, w') ->
  stdout w' = stdout w ++ map (fun file => "Scanning: " +:+ path file) files_.
Proof.
  induction files_ as [|file files_ IH]; intros new_files w d w' Hscan;
    cbn [scan] in Hscan.
  - injection Hscan as <- <-. by rewrite app_nil_r.
  - destruct (gen_public_wrappers_source _ _ _ _); [|done..].
    destruct (Path.split (path file)).
    apply IH in Hscan. rewrite Hscan. cbn. by rewrite <- app_assoc.
Qed.


Lemma scan_keys files_ w d w' k :
  scan to_source parse files_ [] w = (Ok d, w') ->
  k ∈ d.*1 -> exists file, file ∈ files_ ∧ output_path file = k.
Proof.
  intros Hscan [[k0 s] [-> Hin]]%list_elem_of_fmap.
  destruct (scan_entries _ _ _ _ _ _ _ Hscan) as (H1 & _).
  destruct (H1 k0 s Hin) as [H|(file & Hf & Hp & _)]; [|by eauto].
  by apply elem_of_nil in H.
Qed.

End Regenerate.

Lemma dict_set_other d k v k' v' :
  (k', v') ∈ d -> k' ≠ k -> (k', v') ∈ dict_set d k v.
Proof.
  intros Hin Hne. induction d as [|[k0 v0] d IH]; [by apply elem_of_nil in Hin|].
  cbn [dict_set]. destruct (String.eqb k0 k) eqn:Heq.
  - apply String.eqb_eq in Heq as ->.
    apply elem_of_cons in Hin as [[= -> ->]|Hin]; [done|by right].
  - apply elem_of_cons in Hin as [[= -> ->]|Hin]; [by left|].
    right. by apply IH.
Qed.

Lemma dict_set_here d k v : (k, v) ∈ dict_set d k v.
Proof.
  induction d as [|[k0 v0] d IH]; cbn [dict_set]; [by left|].
  destruct (String.eqb k0 k) eqn:Heq.
  - apply String.eqb_eq in Heq as ->. by left.
  - by right.
Qed.

Section Regenerated.

Variable to_source : node -> string.
Variable parse : string -> option node.

Lemma output_path_split file :
  output_path file
  = Path.join (Path.split (path file)).1 (PREFIX +:+ (Path.split (path file)).2).
Proof. unfold output_path. by destruct (Path.split (path file)). Qed.

Lemma scan_cons file files_ new_files w :
  scan to_source parse (file :: files_) new_files w
  = match gen_public_wrappers_source to_source parse file (disk w) with
    | Ok s =>
        scan to_source parse files_ (dict_set new_files (output_path file) s)
          (print ("Scanning: " +:+ path file) w)
    | Raise e => (Raise e, print ("Scanning: " +:+ path file) w)
    | Stuck => (Stuck, print ("Scanning: " +:+ path file) w)
    end.
Proof.
  cbn [scan]. rewrite output_path_split.
  change (disk (print ("Scanning: " +:+ path file) w)) with (disk w).
  destruct (gen_public_wrappers_source to_source parse file (disk w)); [|done..].
  by destruct (Path.split (path file)).
Qed.

Lemma scan_ok files_ : forall new_files w,
  (forall file, file ∈ files_ ->
     exists s, gen_public_wrappers_source to_source parse file (disk w) = Ok s) ->
  exists d w', scan to_source parse files_ new_files w = (Ok d, w').
Proof.
  induction files_ as [|file files_ IH]; intros new_files w Hok; [by eauto|].
  rewrite scan_cons. destruct (Hok file) as [s ->]; [by left|].
  apply IH. intros file' Hin. apply Hok. by right.
Qed.

Lemma scan_preserves files_ : forall new_files w d w' k s,
  scan to_source parse files_ new_files w = (Ok d, w') ->
  (k, s) ∈ new_files ->
  (forall g, g ∈ files_ -> output_path g ≠ k) ->
  (k, s) ∈ d.
Proof.
  induction files_ as [|file files_ IH]; intros new_files w d w' k s Hscan Hin Hne.
  - by injection Hscan as <- <-.
  - rewrite scan_cons in Hscan.
    destruct (gen_public_wrappers_source to_source parse file (disk w))
      as [text| |]; [|done..].
    eapply IH; [exact Hscan| |].
    + apply dict_set_other; [done|]. intros ->. by apply (Hne file); [left|].
    + intros g Hg. apply Hne. by right.
Qed.

(** The entry of an output path is the text generated for the last file
    of the list that has this output path. *)
Lemma scan_last l1 file l2 : forall new_files w d w' s,
  scan to_source parse (l1 ++ file :: l2) new_files w = (Ok d, w') ->
  (forall g, g ∈ l2 -> output_path g ≠ output_path file) ->
  gen_public_wrappers_source to_source parse file (disk w) = Ok s ->
  (output_path file, s) ∈ d.
Proof.
  induction l1 as [|file0 l1 IH]; intros new_files w d w' s Hscan Hne Hgen.
  - cbn [app] in Hscan. rewrite scan_cons, Hgen in Hscan.
    eapply scan_preserves; [exact Hscan|apply dict_set_here|done].
  - cbn [app] in Hscan. rewrite scan_cons in Hscan.
    destruct (gen_public_wrappers_source to_source parse file0 (disk w))
      as [text| |]; [|done..].
    eapply IH; [exact Hscan|done|]. exact Hgen.
Qed.

End Regenerated.

Section Process.

Variable to_source : node -> string.
Variable parse : string -> option node.

(** X1: regenerate mode.  When the generator returns a text for every
    file, [process] without [do_test] returns; afterwards the output path
    of a file holds the text generated for the last file of the list with
    that output path, every path that is no output path is as it was, and
    the run has printed one line per file and the final message. *)
Theorem process_regenerate files_ w :
  (forall file, file ∈ files_ ->
     exists s, gen_public_wrappers_source to_source parse file (disk w) = Ok s) ->
  (process to_source parse files_ false w).1 = Returned
  ∧ (forall l1 file l2 s,
       files_ = l1 ++ file :: l2 ->
       (forall g, g ∈ l2 -> output_path g ≠ output_path file) ->
       gen_public_wrappers_source to_source parse file (disk w) = Ok s ->
       disk (process to_source parse files_ false w).2 !! output_path file
       = Some s)
  ∧ (forall p,
       (forall file, file ∈ files_ -> output_path file ≠ p) ->
       disk (process to_source parse files_ false w).2 !! p = disk w !! p)
  ∧ stdout (process to_source parse files_ false w).2
    = stdout w ++ map (fun file => "Scanning: " +:+ path file) files_
      ++ ["Regenerated sources successfully."].
Proof.
  intros Hok. destruct (scan_ok to_source parse files_ [] w Hok) as (d & w' & Hscan).
  pose proof (scan_disk to_source parse files_ [] w) as Hd.
  pose proof (scan_NoDup _ _ _ _ _ _ _ Hscan (NoDup_nil_2)) as Hnd.
  unfold process. rewrite Hscan in Hd |- *. cbn [fst snd] in Hd |- *.
  split; [done|]. split; [|split].
  - intros l1 file l2 s -> Hne Hgen.
    change (disk (print "Regenerated sources successfully." (write_all d w')))
      with (disk (write_all d w')).
    apply write_all_lookup; [done|]. by eapply scan_last.
  - intros p Hp.
    change (disk (print "Regenerated sources successfully." (write_all d w')))
      with (disk (write_all d w')).
    rewrite write_all_frame, Hd; [done|].
    intros Hin. destruct (scan_keys _ _ _ _ _ _ _ Hscan Hin) as (file & Hf & Hout).
    by apply (Hp file).
  - cbn [print stdout].
    assert (Hs : forall l u, stdout (write_all l u) = stdout u).
    { induction l as [|kv l IH]; intros u; [done|].
      change (write_all (kv :: l) u) with (write_all l (write_file kv.1 kv.2 u)).
      by rewrite IH. }
    rewrite Hs, (scan_stdout _ _ _ _ _ _ _ Hscan). by rewrite <- app_assoc.
Qed.



(** X3: nothing is written unless the run returns.  However [process]
    ends otherwise, by an exception of the generator or by [sys.exit],
    the disk is as it was; it exits only with [do_test], and then with
    status 1. *)
Theorem process_writes_only_on_return files_ w :
  (forall do_test,
     (process to_source parse files_ do_test w).1 = Returned
     ∨ disk (process to_source parse files_ do_test w).2 = disk w)
  ∧ (forall do_test code,
       (process to_source parse files_ do_test w).1 = SystemExit code ->
       do_test = true ∧ code = 1)
  ∧ (forall do_test,
       (process to_source parse files_ do_test w).1 ≠ Unreached).
Proof.
  pose proof (scan_disk to_source parse files_ [] w) as Hd.
  assert (Hns : (scan to_source parse files_ [] w).1 ≠ Stuck).
  { generalize (@nil (string * string)). generalize w. clear Hd.
    induction files_ as [|file l IH]; intros u acc; [done|].
    rewrite scan_cons.
    pose proof (gen_public_wrappers_source_not_stuck to_source parse file (disk u)).
    destruct (gen_public_wrappers_source to_source parse file (disk u));
      [apply IH|done|done]. }
  unfold process.
  destruct (scan to_source parse files_ [] w) as [[d| |] w'] eqn:Hscan;
    cbn [fst snd] in *; [| |done].
  - split; [|split].
    + intros [|]; [|by left].
      destruct (negb (matches_disk_files (disk w') d)); [by right|by left].
    + intros [|] code; [|done].
      destruct (negb (matches_disk_files (disk w') d)); [|done].
      by intros [= <-].
    + intros [|]; [|done].
      by destruct (negb (matches_disk_files (disk w') d)).
  - split; [by right|]. split; done.
Qed.

End Process.

Lemma process_regenerate_witness :
  exists s,
    gen_public_wrappers_source Sample.to_source Sample.parse Sample.file
      Sample.disk = Ok s
    ∧ (process Sample.to_source Sample.parse [Sample.file] false
         (World Sample.disk [])).1 = Returned
    ∧ disk (process Sample.to_source Sample.parse [Sample.file] false
              (World Sample.disk [])).2 !! "trio/_core/_generated_run.py"
      = Some s
    ∧ disk (process Sample.to_source Sample.parse [Sample.file] false
              (World Sample.disk [])).2 !! "trio/_core/_run.py"
      = Some Sample.text
    ∧ stdout (process Sample.to_source Sample.parse [Sample.file] false
                (World Sample.disk [])).2
      = ["Scanning: trio/_core/_run.py"; "Regenerated sources successfully."].
Proof.
  destruct (process_regenerate Sample.to_source Sample.parse [Sample.file]
              (World Sample.disk [])) as (Hret & Hout & Hframe & Hprint).
  { intros file ->%list_elem_of_singleton. eexists. reflexivity. }
  eexists. split; [reflexivity|]. split; [exact Hret|]. split; [|split].
  - apply (Hout [] Sample.file []); [reflexivity| |reflexivity].
    intros g Hg. by apply elem_of_nil in Hg.
  - rewrite (Hframe "trio/_core/_run.py"); [reflexivity|].
    intros file ->%list_elem_of_singleton. discriminate.
  - exact Hprint.
Defined.


(** ** The generated text *)

Lemma str_prefix_app (s t : string) : String.prefix s (s +:+ t) = true.
Proof.
  induction s as [|c s IH]; [by destruct t|].
  rewrite str_app_cons. cbn [String.prefix]. by destruct (ascii_dec c c).
Qed.

Lemma join_snoc sep x l y :
  Str.join sep ((x :: l) ++ [y]) = Str.join sep (x :: l) +:+ sep +:+ y.
Proof.
  revert x. induction l as [|z l IH]; intros x; [done|].
  change (Str.join sep ((x :: z :: l) ++ [y]))
    with (x +:+ sep +:+ Str.join sep ((z :: l) ++ [y])).
  rewrite IH.
  change (Str.join sep (x :: z :: l)) with (x +:+ sep +:+ Str.join sep (z :: l)).
  by rewrite !str_app_assoc.
Qed.

Lemma join_cons_prefix sep x l :
  exists rest, Str.join sep (x :: l) = x +:+ rest.
Proof.
  destruct l as [|y l].
  - exists "". by rewrite str_app_nil_r.
  - by exists (sep +:+ Str.join sep (y :: l)).
Qed.

Lemma header_prefix file : exists rest, header file = HEADER +:+ rest.
Proof.
  unfold header.
  match goal with |- context [Str.concat ?l] => assert (exists l', l = HEADER :: l') as [l' ->] end.
  { destruct (negb (String.eqb (imports file) "")),
      (negb (String.eqb (platform file) "")),
      (negb (Str.contains "TYPE_CHECKING" (imports file))),
      (negb (Str.contains "import sys" (imports file))); cbn [app]; eauto. }
  by exists (Str.concat l').
Qed.

Section Text.

Variable to_source : node -> string.
Variable parse : string -> option node.

Lemma wrappers_ok file l :
  (forall x, x ∈ l -> check_receiver x.2 = Ok tt) ->
  wrappers to_source file l = Ok (map (fun x => snippet to_source file x.2) l).
Proof.
  induction l as [|x l IH]; intros Hok; [done|].
  cbn [wrappers map]. unfold wrapper at 1. rewrite (Hok x) by (by left).
  cbn [mbind res_bind]. rewrite IH; [done|].
  intros y Hy. apply Hok. by right.
Qed.

Lemma wrappers_ok_inv file l ss :
  wrappers to_source file l = Ok ss ->
  forall x, x ∈ l -> check_receiver x.2 = Ok tt.
Proof.
  revert ss. induction l as [|y l IH]; intros ss Hw x Hx;
    [by apply elem_of_nil in Hx|].
  cbn [wrappers] in Hw. unfold wrapper at 1 in Hw.
  destruct (check_receiver y.2) as [[]| |] eqn:Hc; cbn [mbind res_bind] in Hw;
    [|done..].
  destruct (wrappers to_source file l) as [ss'| |]; cbn [mbind res_bind] in Hw;
    [|done..].
  apply elem_of_cons in Hx as [->|Hx]; [done|]. by eapply IH.
Qed.

Lemma wrappers_first_failure file l1 x l2 e :
  (forall y, y ∈ l1 -> check_receiver y.2 = Ok tt) ->
  check_receiver x.2 = Raise e ->
  wrappers to_source file (l1 ++ x :: l2) = Raise e.
Proof.
  induction l1 as [|y l1 IH]; intros Hok Hx.
  - cbn [app wrappers]. unfold wrapper. by rewrite Hx.
  - cbn [app wrappers]. unfold wrapper at 1. rewrite (Hok y) by (by left).
    cbn [mbind res_bind]. rewrite IH; [done| |done].
    intros z Hz. apply Hok. by right.
Qed.

Lemma gen_public_wrappers_source_load file fs text t :
  fs !! path file = Some text -> parse text = Some t ->
  gen_public_wrappers_source to_source parse file fs
  = (ss ← wrappers to_source file (public_methods t);
     Ok (Str.join (Str.nl +:+ Str.nl) ((header file :: ss) ++ [FOOTER]))).
Proof.
  intros Hfs Hparse. unfold gen_public_wrappers_source, parse_file.
  rewrite Hfs, Hparse. cbn [mbind res_bind]. rewrite wrap_methods_load.
  by destruct (wrappers to_source file (public_methods t)).
Qed.

(** X4: when generation succeeds, and the text it returns.  For a file
    that is on disk and parses, the generator returns a text exactly when
    every marked function of the tree, at whatever depth, has a first
    positional parameter named [self]; functions that are not marked are
    not looked at.  The text is then the header, one snippet for each
    marked function in the order of the walk, and the footer, joined by
    blank lines. *)
Theorem gen_public_wrappers_source_text file fs text t :
  fs !! path file = Some text ->
  parse text = Some t ->
  ((exists s, gen_public_wrappers_source to_source parse file fs = Ok s)
   <-> forall l n, node_at t l = Some n -> marked n = true ->
         check_receiver n = Ok tt)
  ∧ forall s,
      gen_public_wrappers_source to_source parse file fs = Ok s ->
      s = Str.join (Str.nl +:+ Str.nl)
            ((header file
              :: map (fun x => snippet to_source file x.2)
                   (filter marked_at (breadth_first t)))
             ++ [FOOTER]).
Proof.
  intros Hfs Hparse. rewrite (gen_public_wrappers_source_load _ _ _ _ Hfs Hparse).
  fold (public_methods t). split; [split|].
  - intros [s Hs] l n Hn Hmk.
    destruct (wrappers to_source file (public_methods t)) as [ss| |] eqn:Hw;
      [|done..].
    apply (wrappers_ok_inv _ _ _ Hw (l, n)). by apply elem_of_public_methods.
  - intros Hall. rewrite wrappers_ok; [by eauto|].
    intros [l n] [Hn Hmk]%elem_of_public_methods. by apply (Hall l n).
  - intros s Hs.
    destruct (wrappers to_source file (public_methods t)) as [ss| |] eqn:Hw;
      [|done..].
    rewrite wrappers_ok in Hw by (by eapply wrappers_ok_inv).
    injection Hw as <-. by injection Hs as <-.
Qed.

(** X5: which exception ends the generation.  When the marked functions
    that come before a marked function in the order of the walk have a
    first positional parameter named [self] and this one has not, the
    generator raises the exception of this one: [IndexError] when it has
    no positional parameter and [AssertionError] when the first one has
    another name. *)
Theorem gen_public_wrappers_source_first_failure file fs text t l1 m n l2 :
  fs !! path file = Some text ->
  parse text = Some t ->
  filter marked_at (breadth_first t) = l1 ++ (m, n) :: l2 ->
  (forall x, x ∈ l1 -> check_receiver x.2 = Ok tt) ->
  check_receiver n ≠ Ok tt ->
  exists a,
    (exists is_async name body decs returns,
       n = FunctionDef is_async name a body decs returns)
    ∧ gen_public_wrappers_source to_source parse file fs
      = Raise (match args a with [] => IndexError | _ => AssertionError end).
Proof.
  intros Hfs Hparse Hl Hok Hn.
  rewrite (gen_public_wrappers_source_load _ _ _ _ Hfs Hparse).
  unfold public_methods. rewrite Hl.
  assert (Hmk : marked n = true).
  { apply (elem_of_public_methods t m n). unfold public_methods. rewrite Hl.
    apply elem_of_app. right. by left. }
  destruct n as [b nm a body decs r| | |]; [|done..].
  exists a. split; [by eauto 6|].
  rewrite (wrappers_first_failure file l1 (m, FunctionDef b nm a body decs r) l2
             (match args a with [] => IndexError | _ => AssertionError end));
    [done|done|].
  cbn [snd check_receiver] in Hn |- *.
  destruct (args a) as [|first rest]; [done|].
  by destruct (String.eqb (arg first) "self").
Qed.

(** X8: the frame of the generated text.  Every text that the generator
    returns starts with the header that warns that the file is generated
    and ends with a blank line and the footer. *)
Theorem gen_public_wrappers_source_frame file fs s :
  gen_public_wrappers_source to_source parse file fs = Ok s ->
  String.prefix HEADER s = true
  ∧ exists body, s = body +:+ Str.nl +:+ Str.nl +:+ FOOTER.
Proof.
  destruct (fs !! path file) as [text|] eqn:Hfs;
    [|unfold gen_public_wrappers_source, parse_file; by rewrite Hfs].
  destruct (parse text) as [t|] eqn:Hparse;
    [|unfold gen_public_wrappers_source, parse_file; by rewrite Hfs, Hparse].
  rewrite (gen_public_wrappers_source_load _ _ _ _ Hfs Hparse).
  destruct (wrappers to_source file (public_methods t)) as [ss| |];
    cbn [mbind res_bind]; [|done..].
  intros Heq.
  assert (s = Str.join (Str.nl +:+ Str.nl) ((header file :: ss) ++ [FOOTER]))
    as -> by congruence.
  clear Heq. rewrite join_snoc. split.
  - destruct (join_cons_prefix (Str.nl +:+ Str.nl) (header file) ss) as [r1 ->].
    destruct (header_prefix file) as [r2 ->].
    rewrite !str_app_assoc. apply str_prefix_app.
  - exists (Str.join (Str.nl +:+ Str.nl) (header file :: ss)).
    by rewrite !str_app_assoc.
Qed.

End Text.

Lemma gen_public_wrappers_source_text_witness :
  (exists s,
     gen_public_wrappers_source Sample.to_source Sample.parse Sample.file
       Sample.disk = Ok s)
  ∧ forall s,
      gen_public_wrappers_source Sample.to_source Sample.parse Sample.file
        Sample.disk = Ok s ->
      s = Str.join (Str.nl +:+ Str.nl)
            [header Sample.file; snippet Sample.to_source Sample.file Sample.f;
             FOOTER].
Proof.
  destruct (gen_public_wrappers_source_text Sample.to_source Sample.parse
              Sample.file Sample.disk Sample.text Sample.module eq_refl eq_refl)
    as [Hiff Htext].
  split; [|exact Htext].
  apply Hiff. intros l n Hn Hmk.
  assert (Hin : (l, n) ∈ public_methods Sample.module)
    by (by apply elem_of_public_methods).
  change (public_methods Sample.module) with [([0; 1], Sample.f)] in Hin.
  apply list_elem_of_singleton in Hin. injection Hin as _ ->. reflexivity.
Defined.

Lemma gen_public_wrappers_source_first_failure_witness :
  gen_public_wrappers_source Sample.to_source (fun _ => Some Nested.failing)
    Sample.file Sample.disk
  = Raise IndexError.
Proof.
  destruct (gen_public_wrappers_source_first_failure Sample.to_source
              (fun _ => Some Nested.failing) Sample.file Sample.disk Sample.text
              Nested.failing [([0; 0], Sample.f)] [0; 1] Sample.no_parameters []
              eq_refl eq_refl eq_refl) as (a & (b & nm & body & decs & r & Heq) & Hgen).
  - intros x ->%list_elem_of_singleton. reflexivity.
  - discriminate.
  - injection Heq as _ _ <- _ _ _. exact Hgen.
Defined.

Lemma gen_public_wrappers_source_frame_witness :
  String.prefix HEADER
    (Str.join (Str.nl +:+ Str.nl)
       [header Sample.file; snippet Sample.to_source Sample.file Sample.f; FOOTER])
  = true
  ∧ exists body,
      Str.join (Str.nl +:+ Str.nl)
        [header Sample.file; snippet Sample.to_source Sample.file Sample.f; FOOTER]
      = body +:+ Str.nl +:+ Str.nl +:+ FOOTER.
Proof.
  exact (gen_public_wrappers_source_frame Sample.to_source Sample.parse
           Sample.file Sample.disk _ eq_refl).
Defined.

Section Walk.

Variable to_source : node -> string.

(** X6: every marked function is yielded once.  The list that the
    scanner yields has no repetition, so no function gets two
    wrappers. *)
Theorem get_public_methods_once t extra :
  exists methods,
    get_public_methods (size t + extra) (load t) (root t) = Ok methods
    ∧ NoDup methods.
Proof.
  eexists. split; [apply get_public_methods_load|].
  pose proof (NoDup_public_methods t) as Hnd.
  induction (public_methods t) as [|[l n] ms IH]; [constructor|].
  cbn [fmap list_fmap fst] in Hnd. apply NoDup_cons in Hnd as [Hl Hnd].
  cbn [map fst]. constructor; [|by apply IH].
  intros Hin. apply Hl. apply list_elem_of_In, in_map_iff in Hin as ([l' n'] & [= ->] & Hin).
  apply list_elem_of_fmap. exists (l, n'). split; [done|]. by apply list_elem_of_In.
Qed.

(** X7: a marked function inside a marked function.  Cutting the body of
    a marked function does not hide the functions defined in it from the
    walk: when the loop ends, the list [generated] holds the header and
    one snippet for each marked function of the tree as parsed, at
    whatever depth and also below another marked function. *)
Theorem wrap_methods_nested file t generated σ' :
  wrap_methods to_source file t = Ok (generated, σ') ->
  length generated = S (length (filter marked_at (preorder [] t)))
  ∧ forall l n,
      node_at t l = Some n -> marked n = true ->
      snippet to_source file n ∈ generated.
Proof.
  rewrite wrap_methods_load.
  destruct (wrappers to_source file (public_methods t)) as [ss| |] eqn:Hw;
    cbn [mbind res_bind]; [|done..].
  intros [= <- _].
  rewrite wrappers_ok in Hw by (by eapply wrappers_ok_inv). injection Hw as <-.
  split.
  - cbn [length]. rewrite length_map. f_equal. unfold public_methods.
    apply Permutation_length. by rewrite breadth_first_preorder.
  - intros l n Hn Hmk. right.
    apply list_elem_of_In, in_map_iff. exists (l, n). split; [done|].
    apply list_elem_of_In. by apply elem_of_public_methods.
Qed.

End Walk.

Lemma wrap_methods_nested_witness :
  length [header Sample.file; snippet Sample.to_source Sample.file Nested.outer;
          snippet Sample.to_source Sample.file Nested.inner] = 3
  ∧ snippet Sample.to_source Sample.file Nested.inner
    ∈ [header Sample.file; snippet Sample.to_source Sample.file Nested.outer;
       snippet Sample.to_source Sample.file Nested.inner]
  ∧ strips (public_methods Nested.module) (load Nested.module) [0; 0]
    = Some (OFunctionDef
              (Function false "outer" [0; 0; 0] [Ref [0; 0; 1]] [] None)).
Proof.
  destruct (wrap_methods_nested Sample.to_source Sample.file Nested.module
              [header Sample.file; snippet Sample.to_source Sample.file Nested.outer;
               snippet Sample.to_source Sample.file Nested.inner]
              (strips (public_methods Nested.module) (load Nested.module))
              eq_refl) as [Hlen Hin].
  split; [exact Hlen|]. split; [|reflexivity].
  exact (Hin [0; 0; 2] Nested.inner eq_refl eq_refl).
Defined.

(** ** The corrections of the rendered text *)

Lemma replace_from_absent old new s :
  Str.contains old s = false -> Str.replace_from old new 0 s = s.
Proof.
  induction s as [|c s IH]; [done|].
  cbn [Str.contains]. intros [Hp Hs]%orb_false_iff.
  cbn [Str.replace_from]. rewrite Hp. f_equal. by apply IH.
Qed.

Lemma replace_absent old new s :
  Str.contains old s = false -> Str.replace old new s = s.
Proof.
  intros H. destruct old as [|c old].
  - by destruct s.
  - by apply replace_from_absent.
Qed.

Lemma corrections_absent file decs func :
  Str.contains "->Iterator" func = false ->
  Str.contains ("None:" +:+ Str.nl) func = false ->
  corrections file decs func = func.
Proof.
  intros H1 H2. unfold corrections. rewrite (replace_absent _ _ _ H1).
  assert (Hsame : (if existsb (is_name "contextmanager") decs then func else func)
                  = func) by (by destruct (existsb _ decs)).
  rewrite Hsame. cbv zeta. rewrite (replace_absent _ _ _ H2).
  by destruct (_ && _).
Qed.

Section Corrections.

Variable to_source : node -> string.

(** X9: the text of [astor] is taken as it is when it holds neither
    pattern.  The two replacements, the one for functions decorated with
    [contextmanager] and the one for [reschedule] in [_run], change
    nothing in a text in which [->Iterator] and [None:] before a line feed
    do not occur: the snippet of a marked function that passes the check
    is then the text of [astor] followed by the indented template,
    whatever the decorators and the file. *)
Theorem wrap_method_verbatim file σ m n :
  marked n = true ->
  agree σ m (TNode n) ->
  check_receiver n = Ok tt ->
  Str.contains "->Iterator" (to_source (forwarded n)) = false ->
  Str.contains ("None:" +:+ Str.nl) (to_source (forwarded n)) = false ->
  wrap_method to_source file (Ref m) σ
  = Ok (to_source (forwarded n)
        +:+ Str.indent
              (TEMPLATE (if asynchronous n then " await " else " ")
                 (modname file) (forwarding_call n))
              "    ",
        strip m n σ).
Proof.
  intros Hmk Hag Hc H1 H2.
  rewrite (wrap_method_agree _ _ _ _ _ Hmk Hag). unfold wrapper.
  rewrite Hc. cbn [mbind res_bind]. unfold snippet, rendered.
  destruct n as [b nm a body decs r| | |]; [|done..].
  by rewrite corrections_absent.
Qed.

End Corrections.

Lemma wrap_method_verbatim_witness :
  wrap_method Sample.to_source
    (mkFile "trio/_core/_run.py" "runner" "" "") (Ref [0; 1]) (load Sample.module)
  = Ok (Sample.to_source (forwarded Sample.f)
        +:+ Str.indent (TEMPLATE " await " "runner" "f(x, y=y)") "    ",
        strip [0; 1] Sample.f (load Sample.module)).
Proof.
  exact (wrap_method_verbatim Sample.to_source
           (mkFile "trio/_core/_run.py" "runner" "" "") (load Sample.module)
           [0; 1] Sample.f eq_refl (fun q => eq_refl) eq_refl eq_refl eq_refl).
Defined.

(** ** Paths *)

Lemma str_length_snoc (s : string) c :
  String.length (s +:+ String c "") = S (String.length s).
Proof. induction s as [|x s IH]; [done|]. rewrite str_app_cons. cbn. by rewrite IH. Qed.

Lemma after_last_slash_no_slash b :
  no_slash b = true -> Str.after_last_slash b = 0.
Proof.
  induction b as [|c b IH]; [done|]. cbn [no_slash Str.after_last_slash].
  intros [Hc Hb]%andb_true_iff. rewrite (IH Hb).
  apply negb_true_iff in Hc. by rewrite Hc.
Qed.

Lemma after_last_slash_dir s b :
  no_slash b = true ->
  Str.after_last_slash (s +:+ String "/" b) = S (String.length s).
Proof.
  intros Hb. induction s as [|c s IH].
  - change ("" +:+ String "/" b) with (String "/" b). cbn [Str.after_last_slash].
    by rewrite (after_last_slash_no_slash b Hb).
  - rewrite str_app_cons. cbn [Str.after_last_slash String.length]. by rewrite IH.
Qed.

Lemma substring_whole (t : string) : String.substring 0 (String.length t) t = t.
Proof. induction t as [|c t IH]; [done|]. cbn. by rewrite IH. Qed.

Lemma take_app (s t : string) : Str.take (String.length s) (s +:+ t) = s.
Proof.
  unfold Str.take. induction s as [|c s IH]; [by destruct t|].
  rewrite str_app_cons. cbn. by rewrite IH.
Qed.

Lemma drop_app (s t : string) : Str.drop (String.length s) (s +:+ t) = t.
Proof.
  unfold Str.drop. induction s as [|c s IH].
  - change ("" +:+ t) with t. cbn [String.length]. rewrite Nat.sub_0_r.
    apply substring_whole.
  - rewrite str_app_cons. cbn [String.length String.substring Nat.sub]. apply IH.
Qed.

Lemma all_slashes_snoc d c t :
  Ascii.eqb c "/" = false -> Str.all_slashes (d +:+ String c t) = false.
Proof.
  intros Hc. induction d as [|x d IH].
  - change ("" +:+ String c t) with (String c t). cbn. by rewrite Hc.
  - rewrite str_app_cons. cbn [Str.all_slashes]. rewrite IH. apply andb_false_r.
Qed.

Lemma rstrip_slash_dir d c :
  Ascii.eqb c "/" = false ->
  Str.rstrip_slash (d +:+ String c "/") = d +:+ String c "".
Proof.
  intros Hc. induction d as [|x d IH].
  - change ("" +:+ String c "/") with (String c "/"). cbn. by rewrite Hc.
  - rewrite !str_app_cons. cbn [Str.rstrip_slash]. rewrite IH.
    by destruct d.
Qed.

Lemma endswith_slash_snoc d c :
  Ascii.eqb c "/" = false -> Str.endswith_slash (d +:+ String c "") = false.
Proof.
  intros Hc. unfold Str.endswith_slash. rewrite str_length_snoc, drop_app.
  cbn. by rewrite Hc.
Qed.

Lemma eqb_snoc_empty d c : String.eqb (d +:+ String c "") "" = false.
Proof. by destruct d. Qed.

Lemma split_dir d c b :
  Ascii.eqb c "/" = false -> no_slash b = true ->
  Path.split ((d +:+ String c "") +:+ String "/" b) = (d +:+ String c "", b).
Proof.
  intros Hc Hb. unfold Path.split.
  rewrite (after_last_slash_dir _ _ Hb).
  assert (Hp : (d +:+ String c "") +:+ String "/" b
               = ((d +:+ String c "") +:+ "/") +:+ b)
    by (by rewrite !str_app_assoc).
  rewrite Hp, <- (str_length_snoc (d +:+ String c "") "/"), take_app, drop_app.
  rewrite (str_app_assoc d). change (String c "" +:+ "/") with (String c "/").
  assert (He : String.eqb (d +:+ String c "/") "" = false) by (by destruct d).
  rewrite He, (all_slashes_snoc d c "/" Hc). cbn [negb andb].
  by rewrite rstrip_slash_dir.
Qed.

Lemma split_plain b : no_slash b = true -> Path.split b = ("", b).
Proof.
  intros Hb. unfold Path.split. rewrite (after_last_slash_no_slash b Hb).
  unfold Str.take, Str.drop. rewrite Nat.sub_0_r, substring_whole.
  by destruct b.
Qed.

Lemma join_dir d c x :
  Ascii.eqb c "/" = false -> Str.startswith x "/" = false ->
  Path.join (d +:+ String c "") x = (d +:+ String c "") +:+ "/" +:+ x.
Proof.
  intros Hc Hx. unfold Path.join.
  by rewrite Hx, eqb_snoc_empty, (endswith_slash_snoc d c Hc).
Qed.

Lemma no_slash_app s t : no_slash (s +:+ t) = no_slash s && no_slash t.
Proof.
  induction s as [|c s IH]; [done|]. rewrite str_app_cons. cbn [no_slash].
  by rewrite IH, andb_assoc.
Qed.

(** The output path of a file in a directory. *)
Lemma output_path_dir file d c b :
  path file = (d +:+ String c "") +:+ String "/" b ->
  Ascii.eqb c "/" = false -> no_slash b = true ->
  output_path file = (d +:+ String c "") +:+ String "/" (PREFIX +:+ b).
Proof.
  intros Hp Hc Hb. unfold output_path. rewrite Hp, (split_dir d c b Hc Hb).
  by rewrite join_dir.
Qed.

Lemma str_length_app (s t : string) :
  String.length (s +:+ t) = String.length s + String.length t.
Proof. induction s as [|c s IH]; [done|]. rewrite str_app_cons. cbn. by rewrite IH. Qed.

(** X10: where the generated file goes.  For a file [b] in a directory
    [d] the output path is the file [_generated] followed by [b] in the
    same directory [d], and it differs from the path of the file; for a
    path without directory it is [_generated] followed by the path. *)
Theorem output_path_same_directory file :
  (forall d c b,
     path file = (d +:+ String c "") +:+ String "/" b ->
     Ascii.eqb c "/" = false -> no_slash b = true ->
     output_path file = (d +:+ String c "") +:+ String "/" (PREFIX +:+ b)
     ∧ Path.split (output_path file) = (d +:+ String c "", PREFIX +:+ b)
     ∧ Path.split (path file) = (d +:+ String c "", b)
     ∧ output_path file ≠ path file)
  ∧ (no_slash (path file) = true -> output_path file = PREFIX +:+ path file).
Proof.
  split.
  - intros d c b Hp Hc Hb.
    rewrite (output_path_dir file d c b Hp Hc Hb), Hp.
    split; [done|]. split; [|split].
    + apply split_dir; [done|]. by rewrite no_slash_app, Hb.
    + by apply split_dir.
    + intros Heq. apply (inj (String.append _)) in Heq.
      injection Heq as Heq.
      assert (Hlen : String.length (PREFIX +:+ b) = String.length b)
        by (by rewrite Heq).
      rewrite str_length_app in Hlen. cbn in Hlen. lia.
  - intros Hp. unfold output_path. rewrite (split_plain _ Hp).
    unfold Path.join. by destruct (path file).
Qed.

(** ** The command *)



Section Main.

Variable to_source : node -> string.
Variable parse : string -> option node.




End Main.

Lemma output_path_same_directory_witness :
  output_path Sample.file = "trio/_core/_generated_run.py"
  ∧ Path.split (output_path Sample.file) = ("trio/_core", "_generated_run.py")
  ∧ Path.split (path Sample.file) = ("trio/_core", "_run.py")
  ∧ output_path Sample.file ≠ path Sample.file.
Proof.
  destruct (output_path_same_directory Sample.file) as [Hdir _].
  exact (Hdir "trio/_cor" "e"%char "_run.py" eq_refl eq_refl eq_refl).
Defined.

(** ** Verify mode and the disk *)


Section Verify.

Variable to_source : node -> string.
Variable parse : string -> option node.

(** X12: what verify mode reports.  When the generator returns a text for
    every file, a run with [do_test] prints one line per file and then
    the verdict: it says that the sources are outdated exactly when it
    exits with status 1, and that they are up to date exactly when it
    returns. *)
Theorem process_verify_prints files_ w :
  (forall file, file ∈ files_ ->
     exists s, gen_public_wrappers_source to_source parse file (disk w) = Ok s) ->
  ((process to_source parse files_ true w).1 = SystemExit 1
   ∧ stdout (process to_source parse files_ true w).2
     = stdout w ++ map (fun file => "Scanning: " +:+ path file) files_
       ++ ["Generated sources are outdated. Please regenerate."])
  ∨ ((process to_source parse files_ true w).1 = Returned
     ∧ stdout (process to_source parse files_ true w).2
       = stdout w ++ map (fun file => "Scanning: " +:+ path file) files_
         ++ ["Generated sources are up to date."]).
Proof.
  intros Hok. destruct (scan_ok to_source parse files_ [] w Hok) as (d & w' & Hscan).
  pose proof (scan_stdout _ _ _ _ _ _ _ Hscan) as Hout.
  unfold process. rewrite Hscan.
  destruct (negb (matches_disk_files (disk w') d)); [left|right];
    (split; [done|]); cbn [snd print stdout]; rewrite Hout;
    by rewrite <- app_assoc.
Qed.


End Verify.

Lemma process_verify_prints_witness :
  (process Sample.to_source Sample.parse [Sample.file] true
     (World Sample.disk [])).1 = SystemExit 1
  ∧ stdout (process Sample.to_source Sample.parse [Sample.file] true
              (World Sample.disk [])).2
    = ["Scanning: trio/_core/_run.py";
       "Generated sources are outdated. Please regenerate."].
Proof.
  destruct (process_verify_prints Sample.to_source Sample.parse [Sample.file]
              (World Sample.disk [])) as [H|[H _]].
  - intros file ->%list_elem_of_singleton. eexists. reflexivity.
  - exact H.
  - discriminate H.
Defined.

